(** * picalive: the evolving-video generator of [pythonimp.py]

    A shallow embedding of [EvolvingVideoCreator] (its frame loop
    [create_evolving_video] and its transform [evolve_frame]) and of the
    callback [start_creation] of the window, the properties of the written
    specification checked against it, and further properties of the code.

    Numbers.  Python integers are [Z].  The float samples of the pixel
    buffer are real numbers ([R]).  The index arithmetic of the frame
    loop, which goes through floats only to come back to an integer, is
    modelled twice: on exact rationals ([Q]), and bit for bit on IEEE
    doubles (modules [Binary64] and [Py]).  The two can differ by one
    column, or by one frame for a fractional duration; what is stated of
    single columns and of frame counts is stated of the loop on doubles
    ([loop_body64]).  The 8-bit frames handed to the encoder are integers
    again. *)

From Stdlib Require Import ZArith QArith Qround List Bool Lia.
From Stdlib.Strings Require Import Byte.
From Stdlib Require String DecimalString.
From Stdlib Require Import Uint63 PrimFloat FloatOps SpecFloat FloatAxioms.
From Stdlib Require Import Reals Lra.
Import ListNotations.
Import String.StringSyntax.

Local Open Scope Z_scope.
Delimit Scope string_scope with string.
Bind Scope string_scope with String.string.

(** ** Python numbers *)

(** [int(x)] on a number: truncation toward zero. *)
Definition py_int (x : Q) : Z := Z.quot (Qnum x) (Zpos (Qden x)).

(** ** The creator's attributes ([__init__], lines 10-15) *)

Record EvolvingVideoCreator : Type := mkCreator {
  fps : Z;
  duration : Q;
  evolution_strength : R;
  output_size : Z * Z
}.

(** The defaults of [__init__]. *)
Definition default_creator : EvolvingVideoCreator :=
  mkCreator 30 (10 # 1) (5 / 100)%R (512, 512).

(** Line 24: [total_frames = int(self.fps * self.duration)], the product
    taken exactly.  That is what Python computes for the integers [__init__]
    and the sliders store; for a float duration Python rounds the product to
    a double first ([Py.total_frames]). *)
Definition total_frames (self : EvolvingVideoCreator) : Z :=
  py_int (inject_Z (fps self) * duration self).

(** [self.output_size[1]], the extent every position of the loop is scaled
    by (lines 36, 37, 40, 42). *)
Definition scan_extent (self : EvolvingVideoCreator) : Z := snd (output_size self).

(** ** Position and width of the overwritten slice (lines 36-37)

    [T] is [total_frames], [W] is [self.output_size[1]].  The loop body is
    only reached with [0 <= i < T], so the division by [T] never sees 0.
    Here the quotient and the product are exact; Python rounds both to
    doubles, which module [Binary64] does bit for bit, and its position can
    fall one column short of the exact one (column 28 for 29 at step 29 of
    100 over 100 columns). *)

(** Line 36, [int((i / total_frames) * self.output_size[1])], on exact
    numbers. *)
Definition overwrite_position (i T W : Z) : Z :=
  py_int ((inject_Z i / inject_Z T) * inject_Z W).

(** Line 37, [max(1, int(self.output_size[1] / total_frames * 2))], on
    exact numbers. *)
Definition overwrite_width (T W : Z) : Z :=
  Z.max 1 (py_int (inject_Z W / inject_Z T * 2)).

(** Line 40: the test of the wrap-around branch. *)
Definition wraps (i T W : Z) : bool :=
  W <? overwrite_position i T W + overwrite_width T W.

(** Line 42. *)
Definition overflow (i T W : Z) : Z :=
  overwrite_position i T W + overwrite_width T W - W.

(** The columns the branch of lines 40-48 assigns at step [i] of a buffer
    with [n] columns, for the position and the width of the exact
    arithmetic: [pos:] and [:overflow] when it wraps, [pos:pos+width]
    otherwise (a slice stops at the end of the axis). *)
Definition in_region (n i T W c : Z) : bool :=
  (0 <=? c) && (c <? n) &&
  (if wraps i T W
   then (overwrite_position i T W <=? c) || (c <? overflow i T W)
   else (overwrite_position i T W <=? c)
        && (c <? overwrite_position i T W + overwrite_width T W)).

(** [range(n)]: the integers of [0, n), in order. *)
Definition range (n : Z) : list Z := map Z.of_nat (seq 0 (Z.to_nat n)).

(** The columns of a buffer of [n] columns that step [i] assigns. *)
Definition replaced_columns (n i T W : Z) : list Z :=
  filter (in_region n i T W) (range n).

(** ** The same index arithmetic on IEEE doubles

    Python evaluates lines 36-37 in binary64: [i / total_frames] is the
    correctly rounded quotient, the product is rounded once more, and
    [int] truncates. *)
Module Binary64.

(** [float(z)] of an int of [0, 2^63). *)
Definition of_Z (z : Z) : float := PrimFloat.of_uint63 (Uint63.of_Z z).

(** [int(x)] on a finite double. *)
Definition trunc (x : float) : Z :=
  match Prim2SF x with
  | S754_finite s m e =>
      let v := if 0 <=? e then Z.shiftl (Zpos m) e
               else Z.shiftr (Zpos m) (- e) in
      if s then - v else v
  | _ => 0
  end.

Definition overwrite_position64 (i T W : Z) : Z :=
  trunc (PrimFloat.mul (PrimFloat.div (of_Z i) (of_Z T)) (of_Z W)).

Definition overwrite_width64 (T W : Z) : Z :=
  Z.max 1 (trunc (PrimFloat.mul (PrimFloat.div (of_Z W) (of_Z T)) (of_Z 2))).

(** [p 0 && ... && p (n-1)]. *)
Fixpoint forallb_below (n : nat) (p : Z -> bool) : bool :=
  match n with
  | O => true
  | S k => p (Z.of_nat k) && forallb_below k p
  end.

(** Every frame of a run of [T] frames gets the position and the width
    of the exact arithmetic. *)
Definition agrees (W T : Z) : bool :=
  (overwrite_width64 T W =? overwrite_width T W)
  && forallb_below (Z.to_nat T)
       (fun i => overwrite_position64 i T W =? overwrite_position i T W).

(** The slice of step [i] on doubles (lines 40-48), and whether the steps of
    a run reach every column of [0, W). *)
Definition in_region64 (n i T W c : Z) : bool :=
  (0 <=? c) && (c <? n) &&
  (let position := overwrite_position64 i T W in
   let width := overwrite_width64 T W in
   if W <? position + width
   then (position <=? c) || (c <? position + width - W)
   else (position <=? c) && (c <? position + width)).

Definition covers64 (W T : Z) : bool :=
  forallb_below (Z.to_nat W)
    (fun c => negb (forallb_below (Z.to_nat T)
                      (fun i => negb (in_region64 W i T W c)))).

(** The runs the sliders of the window can ask for with one of the two at
    its default: 30 frames per second for 5 to 30 seconds, or 15 to 60
    frames per second for 10 seconds. *)
Definition slider_runs : list Z :=
  map (fun d => 30 * d) (map Z.of_nat (seq 5 26))
  ++ map (fun f => f * 10) (map Z.of_nat (seq 15 46)).

End Binary64.

(** A double whose sign bit is clear (or a nan). *)
Definition sign_clear (x : spec_float) : Prop :=
  match x with
  | S754_zero s | S754_infinity s | S754_finite s _ _ => s = false
  | S754_nan => True
  end.

(** ** The frame count on doubles (line 24)

    [self.fps] and [self.duration] are Python numbers.  [__init__] and the
    sliders of the window store ints; a caller may store floats, and then
    the product is rounded to a double before [int] truncates it. *)
Module Py.

(** A Python number: an [int] or a [float]. *)
Inductive number : Type :=
| Int (z : Z)
| Float (x : float).

(** [float(z)]: the double nearest to an int; it raises (no value) when the
    int is too large for a double. *)
Definition of_int (z : Z) : option float :=
  let x := SF2Prim (binary_normalize prec emax z 0 false) in
  if PrimFloat.is_infinity x then None else Some x.

(** [a * b]: the product of two ints is an int; with a float on either side
    the int is converted and the product is rounded to a double. *)
Definition mul (a b : number) : option number :=
  match a, b with
  | Int x, Int y => Some (Int (x * y))
  | Int x, Float y => option_map (fun x' => Float (PrimFloat.mul x' y)) (of_int x)
  | Float x, Int y => option_map (fun y' => Float (PrimFloat.mul x y')) (of_int y)
  | Float x, Float y => Some (Float (PrimFloat.mul x y))
  end.

(** [int(a)]: an int is itself, a float is truncated toward zero, and an
    infinity or a nan raises (no value). *)
Definition int (a : number) : option Z :=
  match a with
  | Int z => Some z
  | Float x =>
      match Prim2SF x with
      | S754_infinity _ | S754_nan => None
      | _ => Some (Binary64.trunc x)
      end
  end.

(** Line 24 as Python evaluates it: [int(self.fps * self.duration)]. *)
Definition total_frames (fps duration : number) : option Z :=
  match mul fps duration with
  | Some product => int product
  | None => None
  end.

(** The number a finite double stands for. *)
Definition value (x : float) : Q :=
  match Prim2SF x with
  | S754_finite s m e =>
      (if s then - inject_Z (Zpos m) else inject_Z (Zpos m)) * (2 ^ e)%Q
  | _ => 0%Q
  end.

(** The doubles Python stores for the literals [0.7] and [0.29]: the
    nearest to 7/10 (just below it) and the nearest to 29/100. *)
Definition d0_7 : float := 0x1.6666666666666p-1%float.
Definition d0_29 : float := 0x1.28f5c28f5c28fp-2%float.

End Py.

(** ** Arrays

    A numpy array of shape (rows, columns, 3) is a list of rows, a row a
    list of pixels, a pixel its three channels. *)

Definition pixel (A : Type) : Type := (A * A * A)%type.
Definition image (A : Type) : Type := list (list (pixel A)).

Section Arrays.

Context {A B C : Type}.

Definition pmap (f : A -> B) (p : pixel A) : pixel B :=
  let '(x, y, z) := p in (f x, f y, f z).

Definition pmap2 (f : A -> B -> C) (p : pixel A) (q : pixel B) : pixel C :=
  let '(x, y, z) := p in let '(x', y', z') := q in (f x x', f y y', f z z').

(** An elementwise operation on one array. *)
Definition imap (f : A -> B) (a : image A) : image B := map (map (pmap f)) a.

Fixpoint zip_with (f : A -> B -> C) (l : list A) (l' : list B) : list C :=
  match l, l' with
  | x :: t, y :: t' => f x y :: zip_with f t t'
  | _, _ => []
  end.

(** [frame[:, :, ::-1]]: the channel axis reversed. *)
Definition reverse_channels (p : pixel A) : pixel A :=
  let '(x, y, z) := p in (z, y, x).

End Arrays.

(** An elementwise operation on two arrays of one shape. *)
Definition imap2 {A B C : Type} (f : A -> B -> C) (a : image A) (b : image B)
  : image C :=
  zip_with (zip_with (pmap2 f)) a b.

(** [a.shape == (rows, cols, 3)]. *)
Definition has_shape {A : Type} (rows cols : nat) (a : image A) : Prop :=
  length a = rows /\ Forall (fun r => length r = cols) a.

(** All samples of an array satisfy [P]. *)
Definition all_samples {A : Type} (P : A -> Prop) (a : image A) : Prop :=
  Forall (Forall (fun p : pixel A => let '(x, y, z) := p in P x /\ P y /\ P z)) a.

(** *** Slice assignment along the column axis

    [dst] and [src] are rows of one length; the bounds are not negative.
    A slice bound past the end of the row stops at the end. *)
Section Slices.

Context {A : Type}.

(** [dst[a:b] = src[a:b]]. *)
Definition assign_slice (a b : nat) (dst src : list A) : list A :=
  firstn a dst ++ firstn (b - a) (skipn a src) ++ skipn (Nat.max a b) dst.

(** [dst[a:] = src[a:]]. *)
Definition assign_from (a : nat) (dst src : list A) : list A :=
  firstn a dst ++ skipn a src.

(** [dst[:b] = src[:b]]. *)
Definition assign_upto (b : nat) (dst src : list A) : list A :=
  firstn b src ++ skipn b dst.

(** Lines 40-48 on an array: the evolved columns of the slice replace
    those of the persistent buffer, row by row. *)
Definition overwrite (i T W : Z) (current_frame evolved_frame : list (list A))
  : list (list A) :=
  let overwrite_position := overwrite_position i T W in
  let overwrite_width := overwrite_width T W in
  if W <? overwrite_position + overwrite_width then
    let overflow := (overwrite_position + overwrite_width) - W in
    let current_frame :=
      zip_with (assign_from (Z.to_nat overwrite_position))
               current_frame evolved_frame in
    zip_with (assign_upto (Z.to_nat overflow)) current_frame evolved_frame
  else
    zip_with (assign_slice (Z.to_nat overwrite_position)
                           (Z.to_nat (overwrite_position + overwrite_width)))
             current_frame evolved_frame.

End Slices.

(** Lines 40-48 for a position and a width, however they were computed. *)
Definition overwrite_at {A : Type} (overwrite_position overwrite_width W : Z)
           (current_frame evolved_frame : list (list A)) : list (list A) :=
  if W <? overwrite_position + overwrite_width then
    let overflow := (overwrite_position + overwrite_width) - W in
    let current_frame :=
      zip_with (assign_from (Z.to_nat overwrite_position))
               current_frame evolved_frame in
    zip_with (assign_upto (Z.to_nat overflow)) current_frame evolved_frame
  else
    zip_with (assign_slice (Z.to_nat overwrite_position)
                           (Z.to_nat (overwrite_position + overwrite_width)))
             current_frame evolved_frame.

(** ** numpy *)
Module np.

Local Open Scope R_scope.

(** [np.clip(x, lo, hi)]: [minimum(maximum(x, lo), hi)]. *)
Definition clip (x lo hi : R) : R := Rmin (Rmax x lo) hi.

(** [x % m] on floats: the remainder of the floored division. *)
Definition remainder (x m : R) : R := x - IZR (Int_part (x / m)) * m.

(** [.astype(np.uint8)] on a float: the fraction is dropped (toward zero).
    The frames of a run only convert values of [0, 255]. *)
Definition astype_uint8 (x : R) : Z :=
  if Rle_dec 0 x then Int_part x else (- Int_part (- x))%Z.

(** The global generator behind [np.random]: the standard normal deviates
    its seed determines, and how many of them have been drawn. *)
Record RandomState : Type := mkRandomState {
  gauss : nat -> R;
  drawn : nat
}.

Fixpoint normal_row (loc scale : R) (g : nat -> R) (k : nat) (cols : nat)
  : list (pixel R) :=
  match cols with
  | O => []
  | S cols' =>
      (loc + scale * g k, loc + scale * g (k + 1)%nat, loc + scale * g (k + 2)%nat)
        :: normal_row loc scale g (k + 3)%nat cols'
  end.

Fixpoint normal_rows (loc scale : R) (g : nat -> R) (k : nat)
                     (shape : list nat) : image R :=
  match shape with
  | [] => []
  | cols :: shape' =>
      normal_row loc scale g k cols
        :: normal_rows loc scale g (k + 3 * cols)%nat shape'
  end.

(** The number of samples of an array whose rows have these lengths. *)
Definition size (shape : list nat) : nat := fold_right (fun c n => (3 * c + n)%nat) O shape.

(** [np.random.normal(loc, scale, a.shape)]: one deviate per sample, in
    row-major order, each [loc + scale * z]; the generator moves on. *)
Definition random_normal (loc scale : R) (a : image R) (rs : RandomState)
  : image R * RandomState :=
  let shape := map (@length (pixel R)) a in
  (normal_rows loc scale (gauss rs) (drawn rs) shape,
   mkRandomState (gauss rs) (drawn rs + size shape)).

End np.

(** ** OpenCV

    [cv2] is a library outside the repository.  Its three functions the
    transform calls are modelled on real numbers as OpenCV documents them
    for floating-point images. *)
Module cv2.

Local Open Scope R_scope.

(** [cv2.cvtColor(_, cv2.COLOR_RGB2HSV)] on a float image: [V] is the
    largest channel, [S = (V - min) / V] (0 when [V = 0]), and [H] is in
    degrees, [0 <= H < 360]. *)
Definition RGB2HSV (p : pixel R) : pixel R :=
  let '(r, g, b) := p in
  let v := Rmax r (Rmax g b) in
  let diff := v - Rmin r (Rmin g b) in
  let s := if Req_dec_T v 0 then 0 else diff / v in
  let h :=
    if Req_dec_T diff 0 then 0
    else if Req_dec_T v r then 60 * (g - b) / diff
    else if Req_dec_T v g then 120 + 60 * (b - r) / diff
    else 240 + 60 * (r - g) / diff in
  ((if Rlt_dec h 0 then h + 360 else h), s, v).

(** [cv2.cvtColor(_, cv2.COLOR_HSV2RGB)] on a float image: the hue, taken
    modulo 360, picks one of six sectors of 60 degrees. *)
Definition HSV2RGB (p : pixel R) : pixel R :=
  let '(h, s, v) := p in
  if Req_dec_T s 0 then (v, v, v)
  else
    let h6 := np.remainder (h / 60) 6 in
    let sector := Int_part h6 in
    let f := h6 - IZR sector in
    let t0 := v in
    let t1 := v * (1 - s) in
    let t2 := v * (1 - s * f) in
    let t3 := v * (1 - s * (1 - f)) in
    match sector with
    | 0%Z => (t0, t3, t1)
    | 1%Z => (t2, t0, t1)
    | 2%Z => (t1, t0, t3)
    | 3%Z => (t1, t2, t0)
    | 4%Z => (t3, t1, t0)
    | 5%Z => (t0, t1, t2)
    | _ => (v, v * (1 - s), v * (1 - s))
    end.

(** The 3-tap kernel of [GaussianBlur] for size 3 and sigma 0:
    [1/4, 1/2, 1/4]. *)
Definition tap (a b c : R) : R := (a + 2 * b + c) / 4.

Definition tap_pixel (p q r : pixel R) : pixel R :=
  let '(p0, p1, p2) := p in
  let '(q0, q1, q2) := q in
  let '(r0, r1, r2) := r in
  (tap p0 q0 r0, tap p1 q1 r1, tap p2 q2 r2).

Fixpoint tap_row (p q r : list (pixel R)) : list (pixel R) :=
  match p, q, r with
  | x :: p', y :: q', z :: r' => tap_pixel x y z :: tap_row p' q' r'
  | _, _, _ => []
  end.

Section OneAxis.

Context {A : Type} (k : A -> A -> A -> A).

(** The kernel slid along [xs], [prev] being the element before its
    head; past the last element the border is mirrored. *)
Fixpoint blur_from (prev : A) (xs : list A) : list A :=
  match xs with
  | [] => []
  | x :: tl => k prev x (hd prev tl) :: blur_from x tl
  end.

(** One pass along an axis with the default border
    ([BORDER_REFLECT_101]): the element before the first is the second. *)
Definition blur_axis (xs : list A) : list A :=
  match xs with
  | [] => []
  | x :: tl => blur_from (hd x tl) xs
  end.

End OneAxis.

(** [cv2.GaussianBlur(src, (3, 3), 0)]: the separable kernel along the
    columns of every row, then along the rows. *)
Definition GaussianBlur (src : image R) : image R :=
  blur_axis tap_row (map (blur_axis tap_pixel) src).

End cv2.

(** ** The transform: [evolve_frame] (lines 65-92) *)

Local Open Scope R_scope.

(** Line 70. *)
Definition hue_shift (progress : R) : R := sin (progress * 2 * PI) * 0.1.

(** Line 71. *)
Definition saturation_factor (progress : R) : R :=
  1.0 + sin (progress * 3 * PI) * 0.1.

(** Line 77 on one hue: [(h + hue_shift * 180) % 180]. *)
Definition new_hue (h progress : R) : R :=
  np.remainder (h + hue_shift progress * 180) 180.

(** Line 77: [hsv[:, :, 0] = (hsv[:, :, 0] + hue_shift * 180) % 180]. *)
Definition apply_hue_shift (progress : R) (p : pixel R) : pixel R :=
  let '(h, s, v) := p in (new_hue h progress, s, v).

(** Line 80: [hsv[:, :, 1] = np.clip(hsv[:, :, 1] * saturation_factor, 0, 1)]. *)
Definition apply_saturation (progress : R) (p : pixel R) : pixel R :=
  let '(h, s, v) := p in (h, np.clip (s * saturation_factor progress) 0 1, v).

(** Lines 74-83: to HSV, the two channel updates, and back. *)
Definition color_shift (progress : R) (frame : image R) : image R :=
  let hsv := map (map cv2.RGB2HSV) frame in
  let hsv := map (map (apply_hue_shift progress)) hsv in
  let hsv := map (map (apply_saturation progress)) hsv in
  map (map cv2.HSV2RGB) hsv.

(** Lines 86-87 once the noise is drawn: [np.clip(evolved + noise, 0, 1)]. *)
Definition add_noise (evolved noise : image R) : image R :=
  imap2 (fun x n => np.clip (x + n) 0 1) evolved noise.

(** [evolve_frame(self, frame, progress)], with [strength] for
    [self.evolution_strength] and the state of [np.random] passed through. *)
Definition evolve_frame (strength : R) (frame : image R) (progress : R)
                        (rs : np.RandomState) : image R * np.RandomState :=
  let evolved := color_shift progress frame in
  let (noise, rs) := np.random_normal 0 strength evolved rs in
  let evolved := add_noise evolved noise in
  let evolved := cv2.GaussianBlur evolved in
  (evolved, rs).

(** ** The frame loop: [create_evolving_video] (lines 17-63) *)

(** An 8-bit image as [cv2.imread] and [cv2.resize] deliver it. *)
Definition uint8_value (b : Byte.byte) : Z := Z.of_N (Byte.to_N b).

(** [cv2.resize(img, self.output_size)] takes the size as (width, height):
    the array it returns has [output_size[1]] rows and [output_size[0]]
    columns. *)
Definition resized_shape {A : Type} (self : EvolvingVideoCreator) (img : image A)
  : Prop :=
  has_shape (Z.to_nat (snd (output_size self))) (Z.to_nat (fst (output_size self))) img.

(** Line 28: [img.astype(np.float32) / 255.0]. *)
Definition normalize (img : image Byte.byte) : image R :=
  imap (fun b => IZR (uint8_value b) / 255) img.

(** Line 51: [(current_frame * 255).astype(np.uint8)]. *)
Definition frame_to_save (current_frame : image R) : image Z :=
  imap (fun x => np.astype_uint8 (x * 255)) current_frame.

(** What the loop carries from one iteration to the next. *)
Record loop_state : Type := mkLoop {
  current_frame : image R;
  frames : list (image Z);
  random_state : np.RandomState
}.

(** One iteration of the loop (lines 32-52) at index [i]. *)
Definition loop_body (self : EvolvingVideoCreator) (T i : Z) (st : loop_state)
  : loop_state :=
  let (evolved_frame, rs) :=
    evolve_frame (evolution_strength self) (current_frame st)
                 (IZR i / IZR T) (random_state st) in
  let current_frame :=
    overwrite i T (scan_extent self) (current_frame st) evolved_frame in
  mkLoop current_frame (frames st ++ [frame_to_save current_frame]) rs.

(** [n] iterations from index [i] on. *)
Fixpoint loop_from (self : EvolvingVideoCreator) (T : Z) (n : nat) (i : Z)
                   (st : loop_state) : loop_state :=
  match n with
  | O => st
  | S n' => loop_from self T n' (i + 1)%Z (loop_body self T i st)
  end.

(** Lines 24-52: [for i in range(total_frames)], from the resized image. *)
Definition generate (self : EvolvingVideoCreator) (img : image Byte.byte)
                    (rs : np.RandomState) : loop_state :=
  let total_frames := total_frames self in
  loop_from self total_frames (Z.to_nat total_frames) 0%Z
            (mkLoop (normalize img) [] rs).

(** The arguments of [ImageSequenceClip] (line 59). *)
Record ImageSequenceClip : Type := mkClip {
  clip_frames : list (image Z);
  clip_fps : Z
}.

(** The error kinds of the specification (its section 7). *)
Inductive error : Type := InvalidSource | InvalidConfiguration | EncodingFailure.

(** How a call ends: with an error, or with a clip handed to
    [write_videofile] (line 60). *)
Inductive outcome : Type :=
| Failed (e : error)
| Assembled (clip : ImageSequenceClip).

(** [create_evolving_video], from the resized image on.  The function has no
    check of its parameters and no [raise]: every call reaches line 59. *)
Definition create_evolving_video (self : EvolvingVideoCreator)
                                 (img : image Byte.byte) (rs : np.RandomState)
  : outcome :=
  let frames := frames (generate self img rs) in
  Assembled (mkClip (map (map (map reverse_channels)) frames) (fps self)).

(** ** The frame loop on doubles

    [loop_body] above takes the position and the width of the slice from
    the exact arithmetic; Python computes them on doubles, and the two can
    differ by one column (module [Binary64]).  The loop below takes them as
    Python computes them, for a frame count [total_frames] that line 24 gave
    and sizes below [2^63]. *)

(** One iteration of the loop (lines 32-52) at index [i]. *)
Definition loop_body64 (self : EvolvingVideoCreator) (total_frames i : Z)
           (st : loop_state) : loop_state :=
  let (evolved_frame, rs) :=
    evolve_frame (evolution_strength self) (current_frame st)
                 (IZR i / IZR total_frames) (random_state st) in
  let current_frame :=
    overwrite_at (Binary64.overwrite_position64 i total_frames (scan_extent self))
                 (Binary64.overwrite_width64 total_frames (scan_extent self))
                 (scan_extent self) (current_frame st) evolved_frame in
  mkLoop current_frame (frames st ++ [frame_to_save current_frame]) rs.

(** [n] iterations from index [i] on. *)
Fixpoint loop_from64 (self : EvolvingVideoCreator) (total_frames : Z) (n : nat)
         (i : Z) (st : loop_state) : loop_state :=
  match n with
  | O => st
  | S n' => loop_from64 self total_frames n' (i + 1)%Z
                        (loop_body64 self total_frames i st)
  end.

(** The loop after its first [k] iterations, and after all of them (lines
    25-52). *)
Definition state_after64 (self : EvolvingVideoCreator) (total_frames : Z)
           (img : image Byte.byte) (rs : np.RandomState) (k : nat) : loop_state :=
  loop_from64 self total_frames k 0%Z (mkLoop (normalize img) [] rs).

Definition generate64 (self : EvolvingVideoCreator) (total_frames : Z)
           (img : image Byte.byte) (rs : np.RandomState) : loop_state :=
  state_after64 self total_frames img rs (Z.to_nat total_frames).

(** ** The driver as the specification words it (sections 4.3 and 7) *)

(** "Fails fast if [totalFrames < 1]": [InvalidConfiguration] before any
    frame is generated. *)
Definition spec_generate (self : EvolvingVideoCreator) (img : image Byte.byte)
                         (rs : np.RandomState) : outcome :=
  if (total_frames self <? 1)%Z then Failed InvalidConfiguration
  else create_evolving_video self img rs.

(** "[hue' = (hue + hueShift * hueRange) mod hueRange]", [hueRange] being
    the hue period of the colour model. *)
Definition spec_new_hue (hueRange h progress : R) : R :=
  np.remainder (h + hue_shift progress * hueRange) hueRange.

(** "The emitted frame is a full copy of [currentBuffer] after the merge":
    sample for sample the same number. *)
Definition exact_copy (frame : image Z) (buffer : image R) : Prop :=
  imap IZR frame = buffer.

(** ** Vocabulary of the statements *)

(** Column [c] of an array: what every row holds at index [c]. *)
Definition column {A : Type} (c : nat) (a : list (list A)) : list (option A) :=
  map (fun row => nth_error row c) a.

(** The sample domain of the float buffer. *)
Definition in01 (x : R) : Prop := (0 <= x <= 1)%R.

Definition in01_pixel (p : pixel R) : Prop :=
  let '(x, y, z) := p in in01 x /\ in01 y /\ in01 z.

(** The sample domain of an 8-bit frame. *)
Definition is_uint8 (z : Z) : Prop := (0 <= z <= 255)%Z.

(** An array all of whose pixels are [p]. *)
Definition uniform {A : Type} (rows cols : nat) (p : pixel A) : image A :=
  repeat (repeat p cols) rows.

(** The loop after its first [k] iterations. *)
Definition state_after (self : EvolvingVideoCreator) (img : image Byte.byte)
                       (rs : np.RandomState) (k : nat) : loop_state :=
  loop_from self (total_frames self) k 0%Z (mkLoop (normalize img) [] rs).

Local Close Scope R_scope.

(** ** What the method prints (lines 30, 54-55, 58, 61) *)

(** [str(z)]: the decimal digits of an integer. *)
Definition str (z : Z) : String.string :=
  DecimalString.NilZero.string_of_int (Z.to_int z).

(** The line of line 55: [f"Generated frame {i}/{total_frames}"]. *)
Definition progress_line (total_frames i : Z) : String.string :=
  String.append "Generated frame "
    (String.append (str i) (String.append "/" (str total_frames))).

(** Lines 54-55: what iteration [i] prints. *)
Definition progress_report (total_frames i : Z) : list String.string :=
  if i mod 10 =? 0 then [progress_line total_frames i] else [].

(** ** The method with its input and output, and the window's callback
    [start_creation] (lines 124-141) *)

(** How a call ends: it returns, or it raises an exception with a message. *)
Inductive raises (A : Type) : Type :=
| Returns (a : A)
| Raises (message : String.string).

Arguments Returns {A} a.
Arguments Raises {A} message.

(** What [start_creation] reads and writes: the creator, the two path
    variables, where the three sliders stand, and the text of the status
    label. *)
Record window : Type := mkWindow {
  creator : EvolvingVideoCreator;
  input_path : String.string;
  output_path : String.string;
  duration_slider : Z;
  fps_slider : Z;
  evolution_slider : R;
  status_label : String.string
}.

(** [not s] on a string: true on the empty string only. *)
Definition py_not (s : String.string) : bool :=
  match s with
  | String.EmptyString => true
  | _ => false
  end.

Section Window.

(** The libraries the method calls on its way in and out: reading and
    resizing the source (lines 20-21) and encoding the clip (line 60) return
    or raise. *)
Variable imread_resize : String.string -> Z * Z -> raises (image Byte.byte).
Variable write_videofile : ImageSequenceClip -> String.string -> raises unit.

(** The method from its first line to its last: lines 20-21, the frame
    loop, and lines 59-63.  Beside how the call ends it gives the lines its
    own [print] calls have written by then. *)
Definition run_create_evolving_video (self : EvolvingVideoCreator)
           (image_path output_path : String.string) (rs : np.RandomState)
  : raises String.string * list String.string :=
  match imread_resize image_path (output_size self) with
  | Raises e => (Raises e, [])
  | Returns img =>
      let total_frames := total_frames self in
      let frames := frames (generate self img rs) in
      let printed :=
        ["Generating frames..."%string]
        ++ flat_map (progress_report total_frames) (range total_frames)
        ++ ["Creating video..."%string] in
      let clip := mkClip (map (map (map reverse_channels)) frames) (fps self) in
      match write_videofile clip output_path with
      | Raises e => (Raises e, printed)
      | Returns _ =>
          (Returns output_path,
           printed ++ [String.append "Video saved to " output_path])
      end
  end.

(** [start_creation()], the callback of the button: the check of the two
    paths, the sliders copied into the creator, the call, and the status it
    leaves.  The text of line 134 is shown while the call runs; line 139 or
    line 141 replaces it before the callback returns.  An integer [Scale]
    gives an [int], the evolution slider a float. *)
Definition start_creation (rs : np.RandomState) (w : window) : window :=
  if py_not (input_path w) || py_not (output_path w) then
    mkWindow (creator w) (input_path w) (output_path w) (duration_slider w)
             (fps_slider w) (evolution_slider w)
             "Please select input and output files"
  else
    let creator :=
      mkCreator (fps_slider w) (inject_Z (duration_slider w))
                (evolution_slider w) (output_size (creator w)) in
    let status_label :=
      match fst (run_create_evolving_video creator (input_path w)
                                           (output_path w) rs) with
      | Returns _ => "Video created successfully!"%string
      | Raises e => String.append "Error: " e
      end in
    mkWindow creator (input_path w) (output_path w) (duration_slider w)
             (fps_slider w) (evolution_slider w) status_label.

End Window.

(** ** Inputs the statements are tried on *)

(** One frame, a buffer of one pixel, no noise. *)
Definition one_frame_creator : EvolvingVideoCreator :=
  mkCreator 1 (1 # 1) 0%R (1, 1).

(** A source of one white pixel. *)
Definition white_image : image Byte.byte := [[(xff, xff, xff)]].

(** A source of one black pixel, and one of a single row of 512. *)
Definition black_image : image Byte.byte := [[(x00, x00, x00)]].

Definition black_row_512 : image Byte.byte := [repeat (x00, x00, x00) 512].

(** A generator whose deviates are all 0. *)
Definition silent_generator : np.RandomState :=
  np.mkRandomState (fun _ => 0%R) 0.

(** A generator that agrees with [silent_generator] on its first three
    deviates only. *)
Definition silent_then_loud : np.RandomState :=
  np.mkRandomState (fun j => if (j <? 3)%nat then 0%R else 1%R) 0.

(** One row, a black pixel next to a white one. *)
Definition black_and_white : image R := [[(0, 0, 0)%R; (1, 1, 1)%R]].

(** The defaults without noise. *)
Definition quiet_creator : EvolvingVideoCreator :=
  mkCreator 30 (10 # 1) 0%R (512, 512).

(** A size whose second component is the larger one: the buffer has 4 rows
    of 2 columns, and the loop scans an extent of 4. *)
Definition tall_creator : EvolvingVideoCreator := mkCreator 4 (1 # 1) 0%R (2, 4).

(** The window with both paths chosen, and libraries that read a black
    pixel and encode without an error. *)
Definition window_with_paths : window :=
  mkWindow default_creator "in.png" "out.mp4" 10 30 (5 / 100)%R "Ready".

Definition reads_black_image (path : String.string) (size : Z * Z)
  : raises (image Byte.byte) := Returns black_image.

Definition encoder_returns (clip : ImageSequenceClip) (path : String.string)
  : raises unit := Returns tt.

(** A size that is not square, 4 wide and 2 high, with four frames; and a
    black source of that size once resized: 2 rows of 4 columns. *)
Definition wide_creator (strength : R) : EvolvingVideoCreator :=
  mkCreator 4 (1 # 1) strength (4, 2).

Definition black_2x4 : image Byte.byte := uniform 2 4 (x00, x00, x00).

(** * Proofs *)

(** ** The index arithmetic *)

Local Open Scope Z_scope.

(** [int] of a number that is not negative is its floor. *)
Lemma py_int_floor (x : Q) : (0 <= x)%Q -> py_int x = Qfloor x.
Proof.
  destruct x as [n d]. unfold Qle, py_int, Qfloor. simpl. intros H.
  apply Z.quot_div_nonneg; lia.
Qed.

(** Line 36 in integers. *)
Lemma overwrite_position_exact (i T W : Z) :
  0 <= i -> 0 < T -> 0 <= W -> overwrite_position i T W = (i * W) / T.
Proof.
  intros Hi HT HW. unfold overwrite_position, py_int.
  destruct T as [|p|p]; try lia.
  cbn -[Z.mul Z.quot Z.div].
  rewrite Z.quot_div_nonneg by lia.
  f_equal; lia.
Qed.

(** Line 37 in integers. *)
Lemma overwrite_width_exact (T W : Z) :
  0 < T -> 0 <= W -> overwrite_width T W = Z.max 1 ((2 * W) / T).
Proof.
  intros HT HW. unfold overwrite_width, py_int.
  destruct T as [|p|p]; try lia.
  cbn -[Z.mul Z.quot Z.div].
  rewrite Z.quot_div_nonneg by lia.
  do 2 f_equal; lia.
Qed.

Lemma overwrite_width_pos (T W : Z) : 1 <= overwrite_width T W.
Proof. unfold overwrite_width. lia. Qed.

(** From one frame to the next the position advances by at most the width. *)
Lemma position_step (i T W : Z) :
  0 <= i -> 0 < T -> 0 < W ->
  ((i + 1) * W) / T <= (i * W) / T + Z.max 1 ((2 * W) / T).
Proof.
  intros Hi HT HW.
  pose proof (Z.div_mod (i * W) T ltac:(lia)) as E1.
  pose proof (Z.mod_pos_bound (i * W) T HT) as B1.
  pose proof (Z.div_mod (2 * W) T ltac:(lia)) as E2.
  pose proof (Z.mod_pos_bound (2 * W) T HT) as B2.
  set (q := (i * W) / T) in *. set (r := (i * W) mod T) in *.
  set (q2 := (2 * W) / T) in *. set (r2 := (2 * W) mod T) in *.
  apply Z.lt_succ_r. apply Z.div_lt_upper_bound; [lia|].
  destruct (Z.max_spec 1 q2) as [[? ->]|[? ->]].
  - destruct (Z_le_gt_dec W T); nia.
  - assert (q2 <= 1) by lia. assert (W < T) by nia. nia.
Qed.

(** ** Slice assignment *)

Section SliceFacts.
Context {A : Type}.
Implicit Types dst src : list A.

Lemma nth_error_assign_from a dst src c :
  length dst = length src ->
  nth_error (assign_from a dst src) c
  = if (a <=? c)%nat then nth_error src c else nth_error dst c.
Proof.
  intros L. unfold assign_from.
  destruct (Nat.leb_spec a c) as [H|H].
  - destruct (Nat.le_gt_cases a (length dst)) as [Ha|Ha].
    + rewrite nth_error_app2; rewrite length_firstn, Nat.min_l by lia; [|lia].
      rewrite nth_error_skipn. f_equal. lia.
    + rewrite firstn_all2, skipn_all2, app_nil_r by lia.
      transitivity (@None A); [|symmetry]; apply nth_error_None; lia.
  - destruct (Nat.lt_ge_cases c (length dst)) as [Hc|Hc].
    + rewrite nth_error_app1 by (rewrite length_firstn; lia).
      rewrite nth_error_firstn.
      destruct (Nat.ltb_spec c a); [reflexivity|lia].
    + rewrite firstn_all2, skipn_all2, app_nil_r by lia. reflexivity.
Qed.

Lemma nth_error_assign_upto b dst src c :
  length dst = length src ->
  nth_error (assign_upto b dst src) c
  = if (c <? b)%nat then nth_error src c else nth_error dst c.
Proof.
  intros L. change (assign_upto b dst src) with (assign_from b src dst).
  rewrite (nth_error_assign_from b src dst c) by lia.
  destruct (Nat.leb_spec b c), (Nat.ltb_spec c b); try lia; reflexivity.
Qed.

Lemma length_assign_from a dst src :
  length dst = length src -> length (assign_from a dst src) = length dst.
Proof.
  intros L. unfold assign_from.
  rewrite length_app, length_firstn, length_skipn. lia.
Qed.

Lemma length_assign_upto b dst src :
  length dst = length src -> length (assign_upto b dst src) = length dst.
Proof.
  intros L. unfold assign_upto.
  rewrite length_app, length_firstn, length_skipn. lia.
Qed.

(** A slice assignment is an assignment up to its end followed by one from
    its start. *)
Lemma assign_slice_split a b dst src :
  (a <= b)%nat -> length dst = length src ->
  assign_slice a b dst src = assign_from a dst (assign_upto b dst src).
Proof.
  intros Hab L. unfold assign_slice, assign_from, assign_upto.
  f_equal. rewrite Nat.max_r by lia.
  rewrite skipn_app, skipn_firstn_comm.
  rewrite length_firstn.
  destruct (Nat.le_gt_cases b (length src)) as [Hb|Hb].
  - rewrite Nat.min_l by lia. replace (a - b)%nat with 0%nat by lia. reflexivity.
  - rewrite Nat.min_r by lia.
    rewrite (skipn_all2 dst) by lia.
    rewrite skipn_nil. reflexivity.
Qed.

Lemma nth_error_assign_slice a b dst src c :
  (a <= b)%nat -> length dst = length src ->
  nth_error (assign_slice a b dst src) c
  = if ((a <=? c) && (c <? b))%nat then nth_error src c else nth_error dst c.
Proof.
  intros Hab L. rewrite assign_slice_split by assumption.
  rewrite nth_error_assign_from by (rewrite length_assign_upto; lia).
  rewrite nth_error_assign_upto by assumption.
  destruct (a <=? c)%nat, (c <? b)%nat; reflexivity.
Qed.

Lemma length_assign_slice a b dst src :
  (a <= b)%nat -> length dst = length src ->
  length (assign_slice a b dst src) = length dst.
Proof.
  intros Hab L. rewrite assign_slice_split by assumption.
  rewrite length_assign_from; rewrite ?length_assign_upto; lia.
Qed.
End SliceFacts.

(** ** Columns of the overwritten buffer *)

Local Open Scope Z_scope.

Section ZipFacts.
Context {A B C : Type}.

Lemma length_zip_with (f : A -> B -> C) l l' :
  length l = length l' -> length (zip_with f l l') = length l.
Proof.
  revert l'. induction l as [|x l IH]; intros [|y l']; simpl; try discriminate; auto.
Qed.

Lemma Forall_zip_with (P : A -> Prop) (Q : B -> Prop) (R : C -> Prop)
      (f : A -> B -> C) l l' :
  (forall x y, P x -> Q y -> R (f x y)) ->
  Forall P l -> Forall Q l' -> Forall R (zip_with f l l').
Proof.
  intros Hf Hl. revert l'. induction Hl as [|x l Hx Hl IH]; intros l' Hl'.
  - constructor.
  - destruct Hl' as [|y l' Hy Hl']; simpl; constructor; auto.
Qed.
End ZipFacts.

Section ColumnFacts.
Context {A : Type}.
Implicit Types cur ev : list (list A).

Lemma column_zip_with (f : list A -> list A -> list A) n c (sel : bool) cur ev :
  length cur = length ev ->
  Forall (fun r => length r = n) cur -> Forall (fun r => length r = n) ev ->
  (forall d s, length d = n -> length s = n ->
               nth_error (f d s) c = if sel then nth_error s c else nth_error d c) ->
  column c (zip_with f cur ev) = if sel then column c ev else column c cur.
Proof.
  intros L Hc He Hf. revert ev L He.
  induction Hc as [|d cur Hd Hc IH]; intros [|s ev] L He; simpl in *; try discriminate.
  - destruct sel; reflexivity.
  - apply Forall_cons_iff in He. destruct He as [Hs He].
    rewrite Hf by assumption. rewrite IH by (auto; lia).
    destruct sel; reflexivity.
Qed.

End ColumnFacts.

(** ** Real numbers: floor, remainder, clip, the blur kernel *)

Local Open Scope R_scope.

(** [Int_part] is the floor. *)
Lemma Int_part_spec (x : R) (z : Z) : IZR z <= x < IZR z + 1 -> Int_part x = z.
Proof.
  intros [H1 H2]. unfold Int_part.
  assert (E : (z + 1)%Z = up x).
  { apply tech_up; rewrite plus_IZR; lra. }
  lia.
Qed.

Lemma Int_part_IZR (z : Z) : Int_part (IZR z) = z.
Proof. apply Int_part_spec. lra. Qed.

Lemma remainder_bounds (x m : R) : 0 < m -> 0 <= np.remainder x m < m.
Proof.
  intros Hm. unfold np.remainder.
  destruct (base_Int_part (x / m)) as [H1 H2].
  set (k := IZR (Int_part (x / m))) in *.
  assert (E : x = x / m * m) by (field; lra).
  split.
  - assert (k * m <= x / m * m) by (apply Rmult_le_compat_r; lra). lra.
  - assert ((x / m - 1) * m < k * m) by (apply Rmult_lt_compat_r; lra). lra.
Qed.

Lemma clip_bounds (x lo hi : R) : lo <= hi -> lo <= np.clip x lo hi <= hi.
Proof.
  intros H. unfold np.clip, Rmin, Rmax.
  destruct (Rle_dec x lo); destruct (Rle_dec _ hi); lra.
Qed.

Lemma clip_id (x lo hi : R) : lo <= x <= hi -> np.clip x lo hi = x.
Proof.
  intros H. unfold np.clip, Rmin, Rmax.
  destruct (Rle_dec x lo); destruct (Rle_dec _ hi); lra.
Qed.

Lemma tap_bounds (a b c : R) : in01 a -> in01 b -> in01 c -> in01 (cv2.tap a b c).
Proof. unfold in01, cv2.tap. lra. Qed.

Lemma tap_same (a : R) : cv2.tap a a a = a.
Proof. unfold cv2.tap. field. Qed.

Lemma RGB2HSV_gray (x : R) : exists s, cv2.RGB2HSV (x, x, x) = (0, s, x) /\ s = 0.
Proof.
  unfold cv2.RGB2HSV.
  assert (Ev : Rmax x (Rmax x x) = x)
    by (unfold Rmax; repeat destruct (Rle_dec _ _); lra).
  assert (Em : Rmin x (Rmin x x) = x)
    by (unfold Rmin; repeat destruct (Rle_dec _ _); lra).
  rewrite Ev, Em.
  destruct (Req_dec_T (x - x) 0) as [_|N]; [|exfalso; lra].
  destruct (Rlt_dec 0 0) as [F|_]; [lra|].
  destruct (Req_dec_T x 0).
  - exists 0. split; reflexivity.
  - exists ((x - x) / x). split; [reflexivity|]. field. assumption.
Qed.

(** A grey pixel has saturation 0: the colour shift gives it back. *)
Lemma color_shift_gray (progress x : R) :
  cv2.HSV2RGB (apply_saturation progress (apply_hue_shift progress (cv2.RGB2HSV (x, x, x))))
  = (x, x, x).
Proof.
  destruct (RGB2HSV_gray x) as [s [-> ->]].
  unfold apply_hue_shift, apply_saturation, cv2.HSV2RGB.
  rewrite Rmult_0_l, clip_id by lra.
  destruct (Req_dec_T 0 0); [reflexivity|lra].
Qed.

(** ** The blur *)

Section BlurFacts.
Context {A : Type} (k : A -> A -> A -> A).

Lemma length_blur_from prev xs : length (cv2.blur_from k prev xs) = length xs.
Proof. revert prev. induction xs as [|x xs IH]; intros prev; simpl; auto. Qed.

Lemma length_blur_axis xs : length (cv2.blur_axis k xs) = length xs.
Proof. destruct xs; [reflexivity|]. apply length_blur_from. Qed.

Section Preserved.
Variable P : A -> Prop.
Hypothesis k_P : forall a b c, P a -> P b -> P c -> P (k a b c).

Lemma Forall_blur_from prev xs :
  P prev -> Forall P xs -> Forall P (cv2.blur_from k prev xs).
Proof.
  intros Hp Hxs. revert prev Hp.
  induction Hxs as [|x xs Hx Hxs IH]; intros prev Hp; simpl; constructor.
  - apply k_P; auto. destruct Hxs; simpl; auto.
  - apply IH. assumption.
Qed.

Lemma Forall_blur_axis xs : Forall P xs -> Forall P (cv2.blur_axis k xs).
Proof.
  intros H. destruct H as [|x xs Hx Hxs]; [constructor|].
  apply Forall_blur_from; [|constructor; assumption].
  destruct Hxs; simpl; auto.
Qed.
End Preserved.

Lemma blur_from_repeat x n :
  k x x x = x -> cv2.blur_from k x (repeat x n) = repeat x n.
Proof.
  intros E. induction n as [|n IH]; simpl; [reflexivity|].
  rewrite IH. f_equal. destruct n; simpl; assumption.
Qed.

Lemma blur_axis_repeat x n :
  k x x x = x -> cv2.blur_axis k (repeat x n) = repeat x n.
Proof.
  intros E. destruct n as [|n]; [reflexivity|].
  change (repeat x (S n)) with (x :: repeat x n) at 1. unfold cv2.blur_axis.
  replace (hd x (repeat x n)) with x by (destruct n; reflexivity).
  apply (blur_from_repeat x (S n) E).
Qed.
End BlurFacts.

Lemma tap_pixel_in01 p q r :
  in01_pixel p -> in01_pixel q -> in01_pixel r -> in01_pixel (cv2.tap_pixel p q r).
Proof.
  destruct p as [[p0 p1] p2], q as [[q0 q1] q2], r as [[r0 r1] r2]. simpl.
  intros (?&?&?) (?&?&?) (?&?&?). repeat split; apply tap_bounds; assumption.
Qed.

Lemma tap_pixel_same p : cv2.tap_pixel p p p = p.
Proof. destruct p as [[p0 p1] p2]. simpl. rewrite !tap_same. reflexivity. Qed.

Lemma tap_row_same r : cv2.tap_row r r r = r.
Proof. induction r as [|p r IH]; simpl; [reflexivity|]. rewrite tap_pixel_same, IH. reflexivity. Qed.

Lemma tap_row_Forall (P : pixel R -> Prop) p q r :
  (forall a b c, P a -> P b -> P c -> P (cv2.tap_pixel a b c)) ->
  Forall P p -> Forall P q -> Forall P r -> Forall P (cv2.tap_row p q r).
Proof.
  intros HP Hp. revert q r. induction Hp as [|x p Hx Hp IH]; intros q r Hq Hr; simpl.
  - constructor.
  - destruct Hq as [|y q Hy Hq]; [constructor|].
    destruct Hr as [|z r Hz Hr]; constructor; auto.
Qed.

Lemma length_tap_row n p q r :
  length p = n -> length q = n -> length r = n -> length (cv2.tap_row p q r) = n.
Proof.
  revert p q r. induction n as [|n IH]; intros [|x p] [|y q] [|z r];
    simpl; try discriminate; auto.
Qed.

Lemma GaussianBlur_shape rows cols (a : image R) :
  has_shape rows cols a -> has_shape rows cols (cv2.GaussianBlur a).
Proof.
  intros [L F]. unfold cv2.GaussianBlur. split.
  - rewrite length_blur_axis, length_map. assumption.
  - apply Forall_blur_axis.
    + intros p q r Hp Hq Hr. apply length_tap_row; assumption.
    + apply Forall_map. eapply Forall_impl; [|exact F].
      cbv beta. intros r Hr. rewrite length_blur_axis. assumption.
Qed.

(** The blur keeps samples in [0, 1]. *)
Lemma GaussianBlur_in01 (a : image R) :
  all_samples in01 a -> all_samples in01 (cv2.GaussianBlur a).
Proof.
  unfold all_samples, cv2.GaussianBlur. intros H.
  apply Forall_blur_axis.
  - intros p q r. apply tap_row_Forall. exact tap_pixel_in01.
  - apply Forall_map. eapply Forall_impl; [|exact H].
    cbv beta. intros r Hr. apply Forall_blur_axis; [exact tap_pixel_in01 | exact Hr].
Qed.

(** The blur of a uniform array is the array. *)
Lemma GaussianBlur_uniform rows cols p :
  cv2.GaussianBlur (repeat (repeat p cols) rows) = repeat (repeat p cols) rows.
Proof.
  unfold cv2.GaussianBlur. rewrite map_repeat.
  rewrite (blur_axis_repeat cv2.tap_pixel p cols (tap_pixel_same p)).
  apply blur_axis_repeat. apply tap_row_same.
Qed.

(** ** The colour shift, the noise, and the transform as a whole *)

Local Open Scope R_scope.

(** Saturation and value of a pixel of [0, 1] channels lie in [0, 1]. *)
Lemma RGB2HSV_sv (p : pixel R) :
  in01_pixel p ->
  let '(h, s, v) := cv2.RGB2HSV p in in01 s /\ in01 v.
Proof.
  destruct p as [[r g] b]. intros (Hr & Hg & Hb). unfold cv2.RGB2HSV.
  set (v := Rmax r (Rmax g b)). set (m := Rmin r (Rmin g b)).
  assert (Hv : in01 v /\ m <= v /\ 0 <= m).
  { unfold v, m, in01, Rmax, Rmin in *. repeat destruct (Rle_dec _ _); lra. }
  destruct Hv as (Hv & Hmv & Hm). unfold in01 in *.
  split; [|assumption].
  destruct (Req_dec_T v 0) as [E|N]; [lra|].
  assert (0 < v) by lra.
  split.
  - apply Rmult_le_pos; [lra|]. apply Rlt_le, Rinv_0_lt_compat. assumption.
  - apply Rmult_le_reg_r with v; [assumption|].
    unfold Rdiv. rewrite Rmult_assoc, Rinv_l by lra. lra.
Qed.

Lemma frac_bounds (x : R) : 0 <= x - IZR (Int_part x) < 1.
Proof. destruct (base_Int_part x). lra. Qed.

(** Back from HSV, a saturation and a value of [0, 1] give channels of
    [0, 1], whatever the hue. *)
Lemma HSV2RGB_in01 (h s v : R) :
  in01 s -> in01 v -> in01_pixel (cv2.HSV2RGB (h, s, v)).
Proof.
  unfold in01. intros Hs Hv. unfold cv2.HSV2RGB.
  destruct (Req_dec_T s 0); [simpl; unfold in01; lra|].
  set (h6 := np.remainder (h / 60) 6).
  pose proof (frac_bounds h6) as Hf.
  set (f := h6 - IZR (Int_part h6)) in *.
  assert (scale : forall a, 0 <= a <= 1 -> in01 (v * a)).
  { intros a Ha. unfold in01. split; [apply Rmult_le_pos; lra|].
    replace 1 with (1 * 1) by ring. apply Rmult_le_compat; lra. }
  assert (part : forall e, 0 <= e <= 1 -> 0 <= 1 - s * e <= 1).
  { intros e He. assert (0 <= s * e) by (apply Rmult_le_pos; lra).
    assert (s * e <= 1 * 1) by (apply Rmult_le_compat; lra). lra. }
  assert (T1 : in01 (v * (1 - s))) by (apply scale; lra).
  assert (T2 : in01 (v * (1 - s * f))) by (apply scale, part; lra).
  assert (T3 : in01 (v * (1 - s * (1 - f)))) by (apply scale, part; lra).
  assert (T0 : in01 v) by (unfold in01; lra).
  generalize (Int_part h6). intros z.
  set (a1 := v * (1 - s)) in *. set (a2 := v * (1 - s * f)) in *.
  set (a3 := v * (1 - s * (1 - f))) in *. clearbody a1 a2 a3.
  unfold in01_pixel.
  destruct z as [|p|p]; [cbn; tauto| |cbn; tauto].
  destruct p as [[p|p|]|[p|p|]|]; try (cbn; tauto); destruct p; cbn; tauto.
Qed.

Lemma color_pixel_in01 (progress : R) (p : pixel R) :
  in01_pixel p ->
  in01_pixel (cv2.HSV2RGB (apply_saturation progress
                (apply_hue_shift progress (cv2.RGB2HSV p)))).
Proof.
  intros Hp. pose proof (RGB2HSV_sv p Hp) as H.
  destruct (cv2.RGB2HSV p) as [[h s] v]. destruct H as [Hs Hv].
  unfold apply_hue_shift, apply_saturation.
  apply HSV2RGB_in01; [|assumption].
  apply clip_bounds. lra.
Qed.

Lemma color_shift_in01 (progress : R) (frame : image R) :
  all_samples in01 frame -> all_samples in01 (color_shift progress frame).
Proof.
  unfold all_samples, color_shift. intros H.
  rewrite !map_map. apply Forall_map. eapply Forall_impl; [|exact H].
  cbv beta. intros row Hrow. rewrite !map_map. apply Forall_map.
  eapply Forall_impl; [|exact Hrow]. intros p Hp. apply (color_pixel_in01 progress p Hp).
Qed.

Lemma has_shape_map2 {A B : Type} (f : A -> B) rows cols (a : list (list A)) :
  length a = rows /\ Forall (fun r => length r = cols) a ->
  length (map (map f) a) = rows /\ Forall (fun r => length r = cols) (map (map f) a).
Proof.
  intros [L F]. split; [rewrite length_map; assumption|].
  apply Forall_map. eapply Forall_impl; [|exact F].
  cbv beta. intros r Hr. rewrite length_map. assumption.
Qed.

Lemma color_shift_shape rows cols progress (frame : image R) :
  has_shape rows cols frame -> has_shape rows cols (color_shift progress frame).
Proof.
  intros H. unfold color_shift.
  do 4 apply has_shape_map2. exact H.
Qed.

Lemma length_normal_row loc scale g k cols :
  length (np.normal_row loc scale g k cols) = cols.
Proof. revert k. induction cols; intros k; simpl; auto. Qed.

Lemma normal_rows_shape loc scale g k (a : image R) rows cols :
  has_shape rows cols a ->
  has_shape rows cols (np.normal_rows loc scale g k (map (@length _) a)).
Proof.
  intros [L F]. subst rows. revert k.
  induction F as [|r a Hr F IH]; intros k; simpl.
  - split; [reflexivity|constructor].
  - destruct (IH (k + 3 * length r)%nat) as [L' F']. split.
    + simpl. f_equal. exact L'.
    + constructor; [|exact F']. rewrite length_normal_row. exact Hr.
Qed.

Lemma size_shape rows cols (a : image R) :
  has_shape rows cols a -> np.size (map (@length _) a) = (rows * (3 * cols))%nat.
Proof.
  intros [L F]. subst rows. unfold np.size.
  induction F as [|r a Hr F IH]; [reflexivity|].
  cbn [map fold_right length]. rewrite IH, Hr. lia.
Qed.

Lemma add_noise_in01 (evolved noise : image R) :
  all_samples in01 (add_noise evolved noise).
Proof.
  unfold all_samples, add_noise, imap2.
  eapply Forall_zip_with with (P := fun _ => True) (Q := fun _ => True).
  - intros r n _ _.
    eapply Forall_zip_with with (P := fun _ => True) (Q := fun _ => True).
    + intros [[x y] z] [[x' y'] z'] _ _. simpl.
      repeat split; apply clip_bounds; lra.
    + apply Forall_forall; auto.
    + apply Forall_forall; auto.
  - apply Forall_forall; auto.
  - apply Forall_forall; auto.
Qed.

Lemma add_noise_shape rows cols (evolved noise : image R) :
  has_shape rows cols evolved -> has_shape rows cols noise ->
  has_shape rows cols (add_noise evolved noise).
Proof.
  intros [L F] [L' F']. unfold add_noise, imap2. split.
  - rewrite length_zip_with; lia.
  - eapply Forall_zip_with; [| exact F | exact F'].
    cbv beta. intros r n Hr Hn. rewrite length_zip_with; lia.
Qed.

(** The transform returns samples of [0, 1]: it clips, then averages. *)
Lemma evolve_frame_in01 strength frame progress rs :
  all_samples in01 (fst (evolve_frame strength frame progress rs)).
Proof.
  unfold evolve_frame. simpl. apply GaussianBlur_in01, add_noise_in01.
Qed.

(** The transform returns an array of the shape it was given. *)
Lemma evolve_frame_shape rows cols strength frame progress rs :
  has_shape rows cols frame ->
  has_shape rows cols (fst (evolve_frame strength frame progress rs)).
Proof.
  intros H. unfold evolve_frame. simpl.
  apply GaussianBlur_shape, add_noise_shape.
  - apply color_shift_shape, H.
  - apply normal_rows_shape, color_shift_shape, H.
Qed.

(** The transform draws one deviate per sample. *)
Lemma evolve_frame_drawn rows cols strength frame progress rs :
  has_shape rows cols frame ->
  np.drawn (snd (evolve_frame strength frame progress rs))
  = (np.drawn rs + rows * (3 * cols))%nat
  /\ np.gauss (snd (evolve_frame strength frame progress rs)) = np.gauss rs.
Proof.
  intros H. unfold evolve_frame. simpl.
  rewrite (size_shape rows cols) by (apply color_shift_shape, H). auto.
Qed.

(** ** The merge and the loop *)

Local Open Scope Z_scope.

Section OverwriteFacts.
Context {A : Type}.
Implicit Types cur ev : list (list A).

Lemma Forall_firstn_skipn (P : A -> Prop) n (l : list A) :
  Forall P l -> Forall P (firstn n l) /\ Forall P (skipn n l).
Proof. intros H. apply Forall_app. rewrite firstn_skipn. exact H. Qed.

Lemma Forall_firstn (P : A -> Prop) n (l : list A) :
  Forall P l -> Forall P (firstn n l).
Proof. intros H. apply (Forall_firstn_skipn P n l H). Qed.

Lemma Forall_skipn (P : A -> Prop) n (l : list A) :
  Forall P l -> Forall P (skipn n l).
Proof. intros H. apply (Forall_firstn_skipn P n l H). Qed.

Lemma Forall_assign_from (P : A -> Prop) a dst src :
  Forall P dst -> Forall P src -> Forall P (assign_from a dst src).
Proof.
  intros Hd Hs. unfold assign_from. apply Forall_app. split.
  - apply Forall_firstn, Hd.
  - apply Forall_skipn, Hs.
Qed.

Lemma Forall_assign_upto (P : A -> Prop) b dst src :
  Forall P dst -> Forall P src -> Forall P (assign_upto b dst src).
Proof. intros Hd Hs. apply (Forall_assign_from P b src dst Hs Hd). Qed.

Lemma Forall_assign_slice (P : A -> Prop) a b dst src :
  Forall P dst -> Forall P src -> Forall P (assign_slice a b dst src).
Proof.
  intros Hd Hs. unfold assign_slice. repeat (apply Forall_app; split).
  - apply Forall_firstn, Hd.
  - apply Forall_firstn, Forall_skipn, Hs.
  - apply Forall_skipn, Hd.
Qed.

Lemma overwrite_Forall (P : A -> Prop) i T W cur ev :
  Forall (Forall P) cur -> Forall (Forall P) ev ->
  Forall (Forall P) (overwrite i T W cur ev).
Proof.
  intros Hc He. unfold overwrite.
  destruct (W <? _).
  - eapply Forall_zip_with; [| |exact He].
    + intros x y Hx Hy. apply Forall_assign_upto; [exact Hx|exact Hy].
    + eapply Forall_zip_with; [|exact Hc|exact He].
      intros x y Hx Hy. apply Forall_assign_from; assumption.
  - eapply Forall_zip_with; [|exact Hc|exact He].
    intros x y Hx Hy. apply Forall_assign_slice; assumption.
Qed.

Lemma overwrite_shape rows cols i T W cur ev :
  length cur = rows /\ Forall (fun r => length r = cols) cur ->
  length ev = rows /\ Forall (fun r => length r = cols) ev ->
  length (overwrite i T W cur ev) = rows
  /\ Forall (fun r => length r = cols) (overwrite i T W cur ev).
Proof.
  intros [Lc Fc] [Le Fe]. unfold overwrite.
  pose proof (overwrite_width_pos T W) as Hw.
  destruct (W <? _).
  - assert (F1 : Forall (fun r => length r = cols)
                   (zip_with (assign_from (Z.to_nat (overwrite_position i T W))) cur ev)).
    { eapply Forall_zip_with; [|exact Fc|exact Fe].
      cbv beta. intros x y Hx Hy. rewrite length_assign_from; lia. }
    split.
    + rewrite !length_zip_with; rewrite ?length_zip_with; lia.
    + eapply Forall_zip_with; [|exact F1|exact Fe].
      cbv beta. intros x y Hx Hy. rewrite length_assign_upto; lia.
  - split.
    + rewrite length_zip_with; lia.
    + eapply Forall_zip_with; [|exact Fc|exact Fe].
      cbv beta. intros x y Hx Hy. rewrite length_assign_slice; lia.
Qed.
End OverwriteFacts.

Lemma loop_body_frames self T i st :
  frames (loop_body self T i st)
  = frames st ++ [frame_to_save (current_frame (loop_body self T i st))].
Proof.
  unfold loop_body. destruct (evolve_frame _ _ _ _) as [ev rs]. reflexivity.
Qed.

Lemma loop_body_current self T i st :
  current_frame (loop_body self T i st)
  = overwrite i T (scan_extent self) (current_frame st)
      (fst (evolve_frame (evolution_strength self) (current_frame st)
                         (IZR i / IZR T) (random_state st))).
Proof.
  unfold loop_body. destruct (evolve_frame _ _ _ _) as [ev rs]. reflexivity.
Qed.

Lemma loop_body_random_state self T i st :
  random_state (loop_body self T i st)
  = snd (evolve_frame (evolution_strength self) (current_frame st)
                      (IZR i / IZR T) (random_state st)).
Proof.
  unfold loop_body. destruct (evolve_frame _ _ _ _) as [ev rs]. reflexivity.
Qed.

Lemma loop_from_app self T a b i st :
  loop_from self T (a + b) i st
  = loop_from self T b (i + Z.of_nat a) (loop_from self T a i st).
Proof.
  revert i st. induction a as [|a IH]; intros i st.
  - simpl. f_equal. lia.
  - cbn [Nat.add loop_from]. rewrite IH. f_equal. lia.
Qed.

Lemma loop_from_succ self T k i st :
  loop_from self T (S k) i st
  = loop_body self T (i + Z.of_nat k) (loop_from self T k i st).
Proof.
  replace (S k) with (k + 1)%nat by lia. rewrite loop_from_app. reflexivity.
Qed.

Lemma loop_from_frames_length self T n i st :
  length (frames (loop_from self T n i st)) = (length (frames st) + n)%nat.
Proof.
  induction n as [|n IH]; [simpl; lia|].
  rewrite loop_from_succ, loop_body_frames, length_app, IH. simpl. lia.
Qed.

Lemma loop_from_frames_prefix self T n i st :
  exists l, frames (loop_from self T n i st) = frames st ++ l.
Proof.
  induction n as [|n [l IH]].
  - exists []. simpl. rewrite app_nil_r. reflexivity.
  - rewrite loop_from_succ, loop_body_frames, IH, <- app_assoc. eauto.
Qed.

(** Frame [k] of the sequence is the one iteration [k] appended. *)
Lemma loop_from_nth_frame self T n i st k :
  (k < n)%nat ->
  nth_error (frames (loop_from self T n i st)) (length (frames st) + k)
  = Some (frame_to_save (current_frame (loop_from self T (S k) i st))).
Proof.
  intros Hk. replace n with (S k + (n - S k))%nat by lia.
  rewrite loop_from_app.
  destruct (loop_from_frames_prefix self T (n - S k) (i + Z.of_nat (S k))
              (loop_from self T (S k) i st)) as [l ->].
  rewrite nth_error_app1.
  - rewrite loop_from_succ at 1. rewrite loop_body_frames.
    rewrite <- loop_from_succ.
    rewrite nth_error_app2 by (rewrite loop_from_frames_length; lia).
    rewrite loop_from_frames_length.
    replace (length (frames st) + k - (length (frames st) + k))%nat with 0%nat by lia.
    reflexivity.
  - rewrite loop_from_frames_length. lia.
Qed.

(** ** The run keeps the shape of the source *)

Lemma normalize_shape rows cols (img : image Byte.byte) :
  has_shape rows cols img -> has_shape rows cols (normalize img).
Proof. intros H. apply has_shape_map2, H. Qed.

Lemma state_after_shape rows cols self img rs k :
  has_shape rows cols img ->
  has_shape rows cols (current_frame (state_after self img rs k)).
Proof.
  intros H. unfold state_after. induction k as [|k IH].
  - apply normalize_shape, H.
  - rewrite loop_from_succ, loop_body_current.
    apply overwrite_shape; [exact IH|].
    apply evolve_frame_shape, IH.
Qed.

Lemma state_after_succ self img rs k :
  state_after self img rs (S k)
  = loop_body self (total_frames self) (Z.of_nat k) (state_after self img rs k).
Proof. unfold state_after. rewrite loop_from_succ. reflexivity. Qed.

Lemma generate_state_after self img rs :
  generate self img rs = state_after self img rs (Z.to_nat (total_frames self)).
Proof. reflexivity. Qed.

(** ** The slices of the exact arithmetic *)

(** On the exact arithmetic: the step whose slice starts at or before
    column [c] and whose successor starts after it. *)
Lemma covering_step (T W c : Z) :
  1 <= T -> 1 <= W -> 0 <= c < W ->
  let i := ((c + 1) * T - 1) / W in
  0 <= i < T /\ (i * W) / T <= c < ((i + 1) * W) / T.
Proof.
  intros HT HW Hc i.
  pose proof (Z.div_mod ((c + 1) * T - 1) W ltac:(lia)) as E.
  pose proof (Z.mod_pos_bound ((c + 1) * T - 1) W ltac:(lia)) as B.
  fold i in E. set (r := ((c + 1) * T - 1) mod W) in *.
  assert (Hi0 : 0 <= i) by (apply Z.div_pos; nia).
  assert (HiT : i < T) by nia.
  repeat split; try assumption.
  - apply Z.lt_succ_r, Z.div_lt_upper_bound; nia.
  - apply Z.lt_le_trans with (c + 1); [lia|].
    apply Z.div_le_lower_bound; nia.
Qed.

Lemma in_region_of_covering_step (T W c i : Z) :
  1 <= T -> 1 <= W -> 0 <= c < W -> 0 <= i ->
  (i * W) / T <= c < ((i + 1) * W) / T ->
  in_region W i T W c = true.
Proof.
  intros HT HW Hc Hi [Hlo Hhi].
  pose proof (position_step i T W Hi ltac:(lia) ltac:(lia)) as Hstep.
  unfold in_region, wraps, overflow.
  rewrite overwrite_position_exact, overwrite_width_exact by lia.
  replace (0 <=? c) with true by (symmetry; apply Z.leb_le; lia).
  replace (c <? W) with true by (symmetry; apply Z.ltb_lt; lia).
  replace (i * W / T <=? c) with true by (symmetry; apply Z.leb_le; lia).
  cbn [andb orb].
  destruct (W <? _); [reflexivity|].
  apply Z.ltb_lt. lia.
Qed.

(** ** The frame sequence *)

Lemma state_after_frames_length self img rs k :
  length (frames (state_after self img rs k)) = k.
Proof. unfold state_after. rewrite loop_from_frames_length. reflexivity. Qed.

Lemma state_after_nth_frame self img rs n k :
  (k < n)%nat ->
  nth_error (frames (state_after self img rs n)) k
  = Some (frame_to_save (current_frame (state_after self img rs (S k)))).
Proof.
  intros Hk. unfold state_after.
  apply (loop_from_nth_frame self (total_frames self) n 0
           (mkLoop (normalize img) [] rs) k Hk).
Qed.

(** ** Position and width: the formulas and the 512 x 512 scenario *)

(** The exact arithmetic in closed form: the position is
    [floor (i * W / T)], the width [max 1 (floor (2 * W / T))], and the width
    is at least 1. *)
Lemma position_and_width_formulas (i T W : Z) :
  0 <= i < T -> 0 <= W ->
  overwrite_position i T W = (i * W) / T
  /\ overwrite_width T W = Z.max 1 ((2 * W) / T)
  /\ 1 <= overwrite_width T W.
Proof.
  intros Hi HW. split; [|split].
  - apply overwrite_position_exact; lia.
  - apply overwrite_width_exact; lia.
  - apply overwrite_width_pos.
Qed.

(** The scenario of the specification: 512 x 512, 30 fps, 10 s. *)
Lemma scenario_512 :
  total_frames default_creator = 300
  /\ scan_extent default_creator = 512
  /\ overwrite_position 0 300 512 = 0
  /\ overwrite_width 300 512 = 3
  /\ wraps 0 300 512 = false
  /\ wraps 299 300 512 = true
  /\ overflow 299 300 512 = 1.
Proof. repeat split; reflexivity. Qed.

(** C4. With [output_size = (4, 2)] the resized buffer has 2 rows of 4
    columns, but the loop scales its positions by [output_size[1] = 2]: at
    frame 3 of 4 the slice starts at column 1, not at column 3, and columns
    2 and 3 lie in no step's slice. *)
Theorem C4_scan_extent_is_the_row_count :
  let self := mkCreator 4 (1 # 1) (5 / 100)%R (4, 2) in
  total_frames self = 4
  /\ scan_extent self = 2
  /\ (forall img : image Byte.byte,
        resized_shape self img ->
        length img = 2%nat /\ Forall (fun row => length row = 4%nat) img)
  /\ overwrite_position 3 (total_frames self) (scan_extent self) = 1
  /\ overwrite_position 3 (total_frames self) 4 = 3
  /\ forall i, 0 <= i < 4 ->
       in_region 4 i (total_frames self) (scan_extent self) 2 = false
       /\ in_region 4 i (total_frames self) (scan_extent self) 3 = false.
Proof.
  cbv zeta. repeat split; try reflexivity.
  - destruct H as [L _]. exact L.
  - destruct H as [_ F]. exact F.
  - assert (E : i = 0 \/ i = 1 \/ i = 2 \/ i = 3) by lia.
    destruct E as [-> | [-> | [-> | ->]]]; reflexivity.
  - assert (E : i = 0 \/ i = 1 \/ i = 2 \/ i = 3) by lia.
    destruct E as [-> | [-> | [-> | ->]]]; reflexivity.
Qed.

(** ** A run of no frame *)

(** C6, as the specification states it, fails: with [fps = 30] and
    [duration = 0] the driver of the specification ends in
    [InvalidConfiguration], while [create_evolving_video] goes on to hand an
    empty clip to the encoder. *)
Lemma C6_no_validation :
  let self := mkCreator 30 (0 # 1) (5 / 100)%R (512, 512) in
  let img := black_image in
  let rs := silent_generator in
  total_frames self = 0
  /\ spec_generate self img rs = Failed InvalidConfiguration
  /\ create_evolving_video self img rs = Assembled (mkClip [] 30)
  /\ create_evolving_video self img rs <> spec_generate self img rs.
Proof.
  cbv zeta. repeat split; try reflexivity. discriminate.
Qed.

(** C6, amended. When [total_frames < 1] the loop body never runs: no frame
    is emitted, the buffer and the generator are left as they were, and the
    empty sequence is handed to the encoder with [fps]; the function raises
    no error of its own. *)
Theorem C6_empty_run (self : EvolvingVideoCreator) (img : image Byte.byte)
        (rs : np.RandomState) :
  total_frames self < 1 ->
  generate self img rs = mkLoop (normalize img) [] rs
  /\ create_evolving_video self img rs = Assembled (mkClip [] (fps self)).
Proof.
  intros H. assert (E : generate self img rs = mkLoop (normalize img) [] rs).
  { unfold generate. replace (Z.to_nat (total_frames self)) with 0%nat by lia.
    reflexivity. }
  split; [exact E|]. unfold create_evolving_video. rewrite E. reflexivity.
Qed.

(** C6 amended, at [fps = 30] and [duration = 0]. *)
Lemma C6_empty_run_witness :
  generate (mkCreator 30 (0 # 1) (5 / 100)%R (512, 512)) black_image
           silent_generator
  = mkLoop (normalize black_image) [] silent_generator
  /\ create_evolving_video (mkCreator 30 (0 # 1) (5 / 100)%R (512, 512))
                           black_image silent_generator
     = Assembled (mkClip [] (fps (mkCreator 30 (0 # 1) (5 / 100)%R (512, 512)))).
Proof.
  apply (C6_empty_run (mkCreator 30 (0 # 1) (5 / 100)%R (512, 512))
           black_image silent_generator).
  reflexivity.
Defined.

(** ** Sample domains *)

Local Open Scope R_scope.

Lemma all_samples_imap {A B : Type} (P : A -> Prop) (Q : B -> Prop) (f : A -> B)
      (a : image A) :
  (forall x, P x -> Q (f x)) -> all_samples P a -> all_samples Q (imap f a).
Proof.
  intros Hf H. unfold all_samples, imap in *.
  apply Forall_map. eapply Forall_impl; [|exact H].
  cbv beta. intros row Hrow. apply Forall_map.
  eapply Forall_impl; [|exact Hrow].
  intros [[x y] z] (Hx & Hy & Hz). simpl. auto.
Qed.

Lemma all_samples_trivial {A : Type} (P : A -> Prop) (a : image A) :
  (forall x, P x) -> all_samples P a.
Proof.
  intros H. unfold all_samples. apply Forall_forall. intros row _.
  apply Forall_forall. intros [[x y] z] _. auto.
Qed.

Lemma uint8_value_bounds (b : Byte.byte) : (0 <= uint8_value b <= 255)%Z.
Proof.
  unfold uint8_value. pose proof (Byte.to_N_bounded b) as H. lia.
Qed.

Lemma normalize_in01 (img : image Byte.byte) : all_samples in01 (normalize img).
Proof.
  unfold normalize.
  apply (all_samples_imap (fun _ => True)); [|apply all_samples_trivial; auto].
  intros b _. destruct (uint8_value_bounds b) as [H0 H1].
  apply IZR_le in H0, H1. unfold in01. lra.
Qed.

Lemma astype_uint8_floor (x : R) : 0 <= x -> np.astype_uint8 x = Int_part x.
Proof.
  intros H. unfold np.astype_uint8. destruct (Rle_dec 0 x); [reflexivity|contradiction].
Qed.

Lemma quantize_bounds (x : R) : in01 x -> is_uint8 (np.astype_uint8 (x * 255)).
Proof.
  unfold in01, is_uint8. intros H.
  rewrite astype_uint8_floor by lra.
  destruct (base_Int_part (x * 255)) as [H1 H2]. split.
  - apply Z.lt_succ_r. apply lt_IZR. rewrite succ_IZR.
    change (0 < IZR (Int_part (x * 255)) + 1). lra.
  - apply le_IZR. lra.
Qed.

Lemma frame_to_save_uint8 (a : image R) :
  all_samples in01 a -> all_samples is_uint8 (frame_to_save a).
Proof. apply all_samples_imap. exact quantize_bounds. Qed.

Lemma loop_body_in01 self T i st :
  all_samples in01 (current_frame st) ->
  all_samples in01 (current_frame (loop_body self T i st)).
Proof.
  intros H. rewrite loop_body_current.
  apply overwrite_Forall; [exact H|apply evolve_frame_in01].
Qed.

Lemma state_after_in01 self img rs k :
  all_samples in01 (current_frame (state_after self img rs k)).
Proof.
  induction k as [|k IH].
  - apply normalize_in01.
  - rewrite state_after_succ. apply loop_body_in01, IH.
Qed.

Lemma state_after_frames_uint8 self img rs k :
  Forall (all_samples is_uint8) (frames (state_after self img rs k)).
Proof.
  induction k as [|k IH].
  - constructor.
  - rewrite state_after_succ, loop_body_frames. apply Forall_app. split; [exact IH|].
    constructor; [|constructor].
    apply frame_to_save_uint8. rewrite <- state_after_succ. apply state_after_in01.
Qed.

(** ** The transform without noise, and its fixed points *)

Lemma zero_noise_row (g : nat -> R) (k : nat) (row : list (pixel R)) :
  Forall in01_pixel row ->
  zip_with (pmap2 (fun x n => np.clip (x + n) 0 1)) row
           (np.normal_row 0 0 g k (length row))
  = row.
Proof.
  intros H. revert k. induction H as [|[[x y] z] row (Hx & Hy & Hz) H IH]; intros k.
  - reflexivity.
  - cbn [length np.normal_row zip_with pmap2]. rewrite IH.
    unfold in01 in *.
    rewrite !Rmult_0_l, !Rplus_0_l, !Rplus_0_r, !clip_id by lra.
    reflexivity.
Qed.

(** Lines 86-87 at strength 0: every deviate is scaled to 0, and clipping a
    buffer of [0, 1] samples changes nothing. *)
Lemma add_zero_noise (evolved : image R) (rs : np.RandomState) :
  all_samples in01 evolved ->
  add_noise evolved (fst (np.random_normal 0 0 evolved rs)) = evolved.
Proof.
  unfold all_samples, add_noise, imap2, np.random_normal. cbn [fst].
  generalize (np.drawn rs) as k. intros k H. revert k.
  induction H as [|row a Hrow H IH]; intros k.
  - reflexivity.
  - cbn [map np.normal_rows zip_with]. rewrite IH.
    rewrite (zero_noise_row (np.gauss rs) k row Hrow). reflexivity.
Qed.

Lemma evolve_frame_strength_0 (frame : image R) (progress : R)
      (rs : np.RandomState) :
  all_samples in01 frame ->
  fst (evolve_frame 0 frame progress rs)
  = cv2.GaussianBlur (color_shift progress frame).
Proof.
  intros H. unfold evolve_frame.
  pose proof (add_zero_noise (color_shift progress frame) rs
                (color_shift_in01 progress frame H)) as E.
  destruct (np.random_normal 0 0 (color_shift progress frame) rs) as [noise rs'].
  cbn [fst] in *. rewrite E. reflexivity.
Qed.

Lemma color_shift_uniform_gray (rows cols : nat) (progress x : R) :
  color_shift progress (uniform rows cols (x, x, x)) = uniform rows cols (x, x, x).
Proof.
  unfold color_shift, uniform. rewrite !map_map, map_repeat. f_equal.
  rewrite !map_map, map_repeat. f_equal. apply color_shift_gray.
Qed.

Lemma uniform_in01 (rows cols : nat) (x : R) :
  in01 x -> all_samples in01 (uniform rows cols (x, x, x)).
Proof.
  intros H. unfold all_samples, uniform.
  apply Forall_forall. intros row Hrow. apply repeat_spec in Hrow. subst row.
  apply Forall_forall. intros p Hp. apply repeat_spec in Hp. subst p. auto.
Qed.

(** A buffer of one grey level is a fixed point of the transform at
    strength 0, whatever the progress. *)
Lemma evolve_frame_uniform_gray (rows cols : nat) (x progress : R)
      (rs : np.RandomState) :
  in01 x ->
  fst (evolve_frame 0 (uniform rows cols (x, x, x)) progress rs)
  = uniform rows cols (x, x, x).
Proof.
  intros H. rewrite evolve_frame_strength_0 by (apply uniform_in01, H).
  rewrite color_shift_uniform_gray. apply GaussianBlur_uniform.
Qed.

Local Open Scope Z_scope.

Lemma zip_with_same {A : Type} (f : A -> A -> A) (l : list A) :
  (forall x, f x x = x) -> zip_with f l l = l.
Proof. intros H. induction l as [|x l IH]; simpl; [|rewrite H, IH]; reflexivity. Qed.

Section SameSource.

Context {A : Type}.

Lemma assign_from_same (a : nat) (l : list A) : assign_from a l l = l.
Proof. apply firstn_skipn. Qed.

Lemma assign_upto_same (b : nat) (l : list A) : assign_upto b l l = l.
Proof. apply firstn_skipn. Qed.

Lemma assign_slice_same (a b : nat) (l : list A) :
  (a <= b)%nat -> assign_slice a b l l = l.
Proof.
  intros H. rewrite assign_slice_split by auto.
  rewrite assign_upto_same. apply assign_from_same.
Qed.

(** Overwriting a buffer with its own columns changes nothing. *)
Lemma overwrite_same (i T W : Z) (a : list (list A)) : overwrite i T W a a = a.
Proof.
  unfold overwrite. pose proof (overwrite_width_pos T W) as Hw.
  destruct (W <? _).
  - rewrite (zip_with_same (assign_from _)) by apply assign_from_same.
    apply zip_with_same, assign_upto_same.
  - apply zip_with_same. intros x. apply assign_slice_same. lia.
Qed.

End SameSource.

(** ** A run of one frame on one white pixel *)

Lemma normalize_white : normalize white_image = uniform 1 1 (1, 1, 1)%R.
Proof.
  unfold normalize, white_image, uniform, imap. cbn [map pmap repeat].
  change (uint8_value xff) with 255.
  replace (255 / 255)%R with 1%R by (field; lra). reflexivity.
Qed.

Lemma quantize_white : frame_to_save (uniform 1 1 (1, 1, 1)%R) = [[(255, 255, 255)]].
Proof.
  unfold frame_to_save, uniform, imap. cbn [map pmap repeat].
  replace (1 * 255)%R with (IZR 255) by lra.
  rewrite astype_uint8_floor by lra. rewrite Int_part_IZR. reflexivity.
Qed.

(** The run: its only step wraps around, the buffer stays white (1.0), and
    the frame it emits holds 255. *)
Lemma white_run :
  total_frames one_frame_creator = 1
  /\ wraps 0 1 (scan_extent one_frame_creator) = true
  /\ current_frame (generate one_frame_creator white_image silent_generator)
     = [[(1, 1, 1)%R]]
  /\ frames (generate one_frame_creator white_image silent_generator)
     = [[[(255, 255, 255)]]].
Proof.
  split; [reflexivity|]. split; [reflexivity|].
  assert (E : current_frame (generate one_frame_creator white_image silent_generator)
              = uniform 1 1 (1, 1, 1)%R).
  { rewrite generate_state_after. change (Z.to_nat _) with 1%nat.
    rewrite state_after_succ, loop_body_current.
    change (current_frame (state_after _ _ _ 0)) with (normalize white_image).
    rewrite normalize_white.
    change (evolution_strength one_frame_creator) with 0%R.
    rewrite evolve_frame_uniform_gray by (unfold in01; lra).
    apply overwrite_same. }
  split; [exact E|].
  rewrite generate_state_after in *. change (Z.to_nat _) with 1%nat in *.
  rewrite state_after_succ, loop_body_frames, <- state_after_succ, E.
  rewrite quantize_white. reflexivity.
Qed.

(** ** The wrap-around merge and the emitted frame *)




(** ** The sample domain along a run *)

(** C5, as the specification states it, fails: the frame of the one-pixel
    run holds the sample 255, outside [0, 1]. *)
Lemma C5_emitted_samples_leave_the_unit_interval :
  ~ Forall (all_samples (fun z => in01 (IZR z)))
      (frames (generate one_frame_creator white_image silent_generator)).
Proof.
  destruct white_run as (_ & _ & _ & Hf). rewrite Hf. intros H.
  apply Forall_inv in H. apply Forall_inv in H. apply Forall_inv in H.
  destruct H as [[_ H] _]. lra.
Qed.

(** C5, amended. Along every run, after any number of steps: every sample
    of the persistent buffer lies in [0, 1]; every sample of every emitted
    frame is an integer of [0, 255]; and the transform returns samples of
    [0, 1] on any input (it clips after the noise, and the blur averages). *)
Theorem C5_sample_domain (self : EvolvingVideoCreator) (img : image Byte.byte)
        (rs : np.RandomState) (k : nat) :
  all_samples in01 (current_frame (state_after self img rs k))
  /\ Forall (all_samples is_uint8) (frames (state_after self img rs k))
  /\ forall (frame : image R) (progress : R) (rs' : np.RandomState),
       all_samples in01
         (fst (evolve_frame (evolution_strength self) frame progress rs')).
Proof.
  split; [|split].
  - apply state_after_in01.
  - apply state_after_frames_uint8.
  - intros frame progress rs'. apply evolve_frame_in01.
Qed.

(** ** What a frame keeps of the buffer *)

Lemma all_samples_impl2 {A : Type} (P Q S : A -> Prop) (a : image A) :
  (forall x, P x -> Q x -> S x) ->
  all_samples P a -> all_samples Q a -> all_samples S a.
Proof.
  intros H HP HQ. unfold all_samples in *.
  induction HP as [|row a Hrow HP IH]; [constructor|].
  apply Forall_cons_iff in HQ. destruct HQ as [Hrow' HQ].
  constructor; [|apply IH, HQ].
  clear IH HP HQ. induction Hrow as [|[[x y] z] row Hp Hrow IH]; [constructor|].
  apply Forall_cons_iff in Hrow'. destruct Hrow' as [Hp' Hrow'].
  constructor; [|apply IH, Hrow'].
  destruct Hp as (?&?&?), Hp' as (?&?&?). auto.
Qed.

Lemma map_fixed {A : Type} (f : A -> A) (l : list A) :
  map f l = l -> Forall (fun x => f x = x) l.
Proof.
  induction l as [|x l IH]; intros E; [constructor|].
  injection E as Ex El. constructor; auto.
Qed.

Lemma imap_fixed {A : Type} (f : A -> A) (a : image A) :
  imap f a = a -> all_samples (fun x => f x = x) a.
Proof.
  intros E. unfold all_samples. apply map_fixed in E.
  eapply Forall_impl; [|exact E]. cbv beta. intros row Erow.
  apply map_fixed in Erow. eapply Forall_impl; [|exact Erow].
  intros [[x y] z] Ep. injection Ep as Ex Ey Ez. auto.
Qed.

Lemma imap_imap {A B C : Type} (f : A -> B) (g : B -> C) (a : image A) :
  imap g (imap f a) = imap (fun x => g (f x)) a.
Proof.
  unfold imap. rewrite map_map. apply map_ext. intros row.
  rewrite map_map. apply map_ext. intros [[x y] z]. reflexivity.
Qed.

Lemma imap_ext_samples {A B : Type} (P : A -> Prop) (f g : A -> B) (a : image A) :
  (forall x, P x -> f x = g x) -> all_samples P a -> imap f a = imap g a.
Proof.
  intros H Ha. unfold imap, all_samples in *.
  apply map_ext_in. intros row Hrow.
  rewrite Forall_forall in Ha. specialize (Ha row Hrow).
  apply map_ext_in. intros [[x y] z] Hp.
  rewrite Forall_forall in Ha. destruct (Ha _ Hp) as (Hx & Hy & Hz).
  simpl. rewrite !H by assumption. reflexivity.
Qed.

(** On a buffer of [0, 1] samples the conversion of line 51 is the floor of
    [sample * 255]. *)
Lemma frame_to_save_floor (a : image R) :
  all_samples in01 a ->
  frame_to_save a = imap (fun x => Int_part (x * 255)) a.
Proof.
  apply imap_ext_samples. intros x Hx.
  apply astype_uint8_floor. unfold in01 in Hx. lra.
Qed.

(** A sample of [0, 1] that its own 8-bit conversion reproduces is 0. *)
Lemma quantized_sample_fixed (x : R) :
  in01 x -> IZR (Int_part (x * 255)) = x -> x = 0%R.
Proof.
  unfold in01. intros Hx E.
  destruct (base_Int_part (x * 255)) as [H1 H2].
  set (n := Int_part (x * 255)) in *. rewrite <- E in *.
  assert (Hn : (0 <= n < 1)%Z).
  { split.
    - apply le_IZR. lra.
    - apply lt_IZR. lra. }
  replace n with 0%Z by lia. reflexivity.
Qed.

(** C10. Frame [i] of the sequence is the 8-bit conversion
    [floor (sample * 255)] of the persistent buffer as step [i] left it, its
    samples integers of [0, 255]; it is an exact copy of that buffer only
    when the buffer is all 0.  The buffer itself is not converted: step [i]
    merges into, and evolves from, the float buffer of the step before.  The
    encoder is handed these frames, channels reversed, in order. *)
Theorem C10_frames_are_quantized (self : EvolvingVideoCreator)
        (img : image Byte.byte) (rs : np.RandomState) (i : nat) :
  (i < Z.to_nat (total_frames self))%nat ->
  let before := state_after self img rs i in
  let buffer := current_frame (state_after self img rs (S i)) in
  let frame := imap (fun x => Int_part (x * 255)) buffer in
  nth_error (frames (generate self img rs)) i = Some frame
  /\ all_samples is_uint8 frame
  /\ (exact_copy frame buffer -> all_samples (fun x => x = 0%R) buffer)
  /\ buffer
     = overwrite (Z.of_nat i) (total_frames self) (scan_extent self)
         (current_frame before)
         (fst (evolve_frame (evolution_strength self) (current_frame before)
                 (IZR (Z.of_nat i) / IZR (total_frames self))
                 (random_state before)))
  /\ exists clip,
       create_evolving_video self img rs = Assembled clip
       /\ clip_fps clip = fps self
       /\ nth_error (clip_frames clip) i = Some (map (map reverse_channels) frame).
Proof.
  intros Hi before buffer frame.
  pose proof (state_after_in01 self img rs (S i)) as Hin. fold buffer in Hin.
  assert (Hframe : frame_to_save buffer = frame) by apply frame_to_save_floor, Hin.
  assert (Hnth : nth_error (frames (generate self img rs)) i = Some frame).
  { rewrite generate_state_after, (state_after_nth_frame self img rs _ i Hi).
    fold buffer. rewrite Hframe. reflexivity. }
  split; [exact Hnth|]. split; [|split; [|split]].
  - rewrite <- Hframe. apply frame_to_save_uint8, Hin.
  - unfold exact_copy, frame. rewrite imap_imap. intros E.
    apply imap_fixed in E.
    apply (all_samples_impl2 in01 (fun x => IZR (Int_part (x * 255)) = x));
      [exact quantized_sample_fixed | exact Hin | exact E].
  - unfold buffer, before. rewrite state_after_succ. apply loop_body_current.
  - exists (mkClip (map (map (map reverse_channels)) (frames (generate self img rs)))
                   (fps self)).
    split; [reflexivity|]. split; [reflexivity|].
    cbn [clip_frames]. rewrite nth_error_map.
    exact (f_equal (option_map (map (map reverse_channels))) Hnth).
Qed.

(** C10 at the only frame of the one-pixel run. *)
Lemma C10_frames_are_quantized_witness :
  let self := one_frame_creator in
  let img := white_image in
  let rs := silent_generator in
  let before := state_after self img rs 0 in
  let buffer := current_frame (state_after self img rs 1) in
  let frame := imap (fun x => Int_part (x * 255)) buffer in
  nth_error (frames (generate self img rs)) 0 = Some frame
  /\ all_samples is_uint8 frame
  /\ (exact_copy frame buffer -> all_samples (fun x => x = 0%R) buffer)
  /\ buffer
     = overwrite (Z.of_nat 0) (total_frames self) (scan_extent self)
         (current_frame before)
         (fst (evolve_frame (evolution_strength self) (current_frame before)
                 (IZR (Z.of_nat 0) / IZR (total_frames self))
                 (random_state before)))
  /\ exists clip,
       create_evolving_video self img rs = Assembled clip
       /\ clip_fps clip = fps self
       /\ nth_error (clip_frames clip) 0 = Some (map (map reverse_channels) frame).
Proof.
  apply (C10_frames_are_quantized one_frame_creator white_image silent_generator 0).
  vm_compute. apply le_n.
Defined.

(** ** The hue update *)

Local Open Scope R_scope.

Lemma remainder_eval (x m : R) (k : Z) :
  0 < m -> IZR k * m <= x < (IZR k + 1) * m ->
  np.remainder x m = x - IZR k * m.
Proof.
  intros Hm [Hlo Hhi]. unfold np.remainder.
  assert (Hinv : 0 < / m) by (apply Rinv_0_lt_compat, Hm).
  assert (E : Int_part (x / m) = k).
  { apply Int_part_spec. unfold Rdiv. split.
    - replace (IZR k) with (IZR k * m * / m) by (field; lra).
      apply Rmult_le_compat_r; lra.
    - replace (IZR k + 1) with ((IZR k + 1) * m * / m) by (field; lra).
      apply Rmult_lt_compat_r; lra. }
  rewrite E. reflexivity.
Qed.

Lemma hue_shift_0 : hue_shift 0 = 0.
Proof.
  unfold hue_shift. replace (0 * 2 * PI) with 0 by ring. rewrite sin_0. ring.
Qed.

Lemma saturation_factor_0 : saturation_factor 0 = 1.
Proof.
  unfold saturation_factor. replace (0 * 3 * PI) with 0 by ring.
  rewrite sin_0. lra.
Qed.

Lemma RGB2HSV_blue : cv2.RGB2HSV (0, 0, 1) = (240, 1, 1).
Proof.
  unfold cv2.RGB2HSV.
  assert (Ev : Rmax 0 (Rmax 0 1) = 1)
    by (unfold Rmax; repeat destruct (Rle_dec _ _); lra).
  assert (Em : Rmin 0 (Rmin 0 1) = 0)
    by (unfold Rmin; repeat destruct (Rle_dec _ _); lra).
  rewrite Ev, Em.
  destruct (Req_dec_T 1 0) as [F|_]; [lra|].
  destruct (Req_dec_T (1 - 0) 0) as [F|_]; [lra|].
  replace (240 + 60 * (0 - 0) / (1 - 0)) with 240 by (field; lra).
  destruct (Rlt_dec 240 0) as [F|_]; [lra|].
  replace ((1 - 0) / 1) with 1 by (field; lra). reflexivity.
Qed.

Lemma sextant_bounds (x d : R) :
  0 < d -> - d <= x <= d -> -60 <= 60 * x / d <= 60.
Proof.
  intros Hd [Hlo Hhi].
  assert (Hinv : 0 < / d) by (apply Rinv_0_lt_compat, Hd).
  assert (E1 : 60 * x / d = 60 * (x * / d)) by (unfold Rdiv; ring).
  assert (B1 : - d * / d <= x * / d) by (apply Rmult_le_compat_r; lra).
  assert (B2 : x * / d <= d * / d) by (apply Rmult_le_compat_r; lra).
  replace (- d * / d) with (-1) in B1 by (field; lra).
  replace (d * / d) with 1 in B2 by (field; lra).
  lra.
Qed.

(** The hue of OpenCV's float HSV ranges over a period of 360: every pixel
    gets a hue of [0, 360). *)
Lemma RGB2HSV_hue_range (p : pixel R) :
  let '(h, _, _) := cv2.RGB2HSV p in 0 <= h < 360.
Proof.
  destruct p as [[r g] b]. unfold cv2.RGB2HSV.
  set (v := Rmax r (Rmax g b)). set (m := Rmin r (Rmin g b)).
  assert (Hv : r <= v /\ g <= v /\ b <= v /\ (v = r \/ v = g \/ v = b))
    by (unfold v, Rmax; repeat destruct (Rle_dec _ _); lra).
  assert (Hm : m <= r /\ m <= g /\ m <= b)
    by (unfold m, Rmin; repeat destruct (Rle_dec _ _); lra).
  destruct Hv as (Hr & Hg & Hb & Hmax). destruct Hm as (Mr & Mg & Mb).
  destruct (Req_dec_T (v - m) 0) as [E0|N0].
  - destruct (Rlt_dec 0 0); lra.
  - assert (Hd : 0 < v - m) by lra.
    destruct (Req_dec_T v r) as [Er|Nr].
    + pose proof (sextant_bounds (g - b) (v - m) Hd ltac:(lra)) as B.
      destruct (Rlt_dec _ 0); lra.
    + destruct (Req_dec_T v g) as [Eg|Ng].
      * pose proof (sextant_bounds (b - r) (v - m) Hd ltac:(lra)) as B.
        destruct (Rlt_dec _ 0); lra.
      * pose proof (sextant_bounds (r - g) (v - m) Hd ltac:(lra)) as B.
        destruct (Rlt_dec _ 0); lra.
Qed.

Lemma HSV2RGB_yellow : cv2.HSV2RGB (60, 1, 1) = (1, 1, 0).
Proof.
  unfold cv2.HSV2RGB.
  destruct (Req_dec_T 1 0) as [F|_]; [lra|].
  replace (60 / 60) with 1 by (field; lra).
  rewrite (remainder_eval 1 6 0) by lra.
  replace (1 - 0 * 6) with (IZR 1) by lra.
  rewrite Int_part_IZR.
  f_equal; [f_equal|]; lra.
Qed.

(** C7. A pure blue pixel has hue 240 in OpenCV's float HSV, whose hue
    period is 360.  At progress 0 the hue shift is 0, and line 77 still turns
    that hue into [240 % 180 = 60], where the formula of the specification
    with the period 360 leaves it at 240: the pixel comes back yellow. *)
Theorem C7_hue_is_reduced_modulo_180 :
  hue_shift 0 = 0
  /\ cv2.RGB2HSV (0, 0, 1) = (240, 1, 1)
  /\ new_hue 240 0 = 60
  /\ spec_new_hue 360 240 0 = 240
  /\ cv2.HSV2RGB (apply_saturation 0 (apply_hue_shift 0 (cv2.RGB2HSV (0, 0, 1))))
     = (1, 1, 0).
Proof.
  assert (H60 : new_hue 240 0 = 60).
  { unfold new_hue. rewrite hue_shift_0.
    rewrite (remainder_eval _ 180 1) by lra. lra. }
  split; [exact hue_shift_0|]. split; [exact RGB2HSV_blue|].
  split; [exact H60|]. split.
  - unfold spec_new_hue. rewrite hue_shift_0.
    rewrite (remainder_eval _ 360 0) by lra. lra.
  - rewrite RGB2HSV_blue. unfold apply_hue_shift, apply_saturation.
    rewrite H60, saturation_factor_0, clip_id by lra.
    replace (1 * 1) with 1 by ring. apply HSV2RGB_yellow.
Qed.

(** ** Strength 0 *)






Local Open Scope Z_scope.

(** ** Determinism *)

Lemma normal_row_ext (loc scale : R) (g1 g2 : nat -> R) (k cols : nat) :
  (forall j, (j < 3 * cols)%nat -> g1 (k + j)%nat = g2 (k + j)%nat) ->
  np.normal_row loc scale g1 k cols = np.normal_row loc scale g2 k cols.
Proof.
  revert k. induction cols as [|cols IH]; intros k H; [reflexivity|].
  cbn [np.normal_row].
  pose proof (H 0%nat ltac:(lia)) as H0. rewrite Nat.add_0_r in H0.
  rewrite H0, (H 1%nat), (H 2%nat) by lia. f_equal.
  apply IH. intros j Hj.
  replace (k + 3 + j)%nat with (k + (3 + j))%nat by lia. apply H. lia.
Qed.

Lemma normal_rows_ext (loc scale : R) (g1 g2 : nat -> R) (k : nat)
      (shape : list nat) :
  (forall j, (j < np.size shape)%nat -> g1 (k + j)%nat = g2 (k + j)%nat) ->
  np.normal_rows loc scale g1 k shape = np.normal_rows loc scale g2 k shape.
Proof.
  revert k. induction shape as [|cols shape IH]; intros k H; [reflexivity|].
  unfold np.size in H. cbn [fold_right] in H. fold (np.size shape) in H.
  cbn [np.normal_rows]. f_equal.
  - apply normal_row_ext. intros j Hj. apply H. lia.
  - apply IH. intros j Hj.
    replace (k + 3 * cols + j)%nat with (k + (3 * cols + j))%nat by lia.
    apply H. lia.
Qed.

(** The transform reads the generator only through the deviates it draws. *)
Lemma evolve_frame_ext (rows cols : nat) (strength : R) (frame : image R)
      (progress : R) (rs1 rs2 : np.RandomState) :
  has_shape rows cols frame ->
  np.drawn rs1 = np.drawn rs2 ->
  (forall j, (j < rows * (3 * cols))%nat ->
     np.gauss rs1 (np.drawn rs1 + j)%nat = np.gauss rs2 (np.drawn rs2 + j)%nat) ->
  fst (evolve_frame strength frame progress rs1)
  = fst (evolve_frame strength frame progress rs2).
Proof.
  intros Hshape Hd Hg. unfold evolve_frame, np.random_normal. cbn [fst].
  do 2 f_equal. rewrite <- Hd.
  apply normal_rows_ext. intros j Hj.
  rewrite (size_shape rows cols) in Hj by (apply color_shift_shape, Hshape).
  rewrite (Hg j Hj), Hd. reflexivity.
Qed.

(** Two runs whose generators agree on the deviates drawn so far are in the
    same state, generators apart. *)
Lemma state_after_ext (self : EvolvingVideoCreator) (img : image Byte.byte)
      (rows cols : nat) (rs1 rs2 : np.RandomState) (k : nat) :
  has_shape rows cols img ->
  np.drawn rs1 = np.drawn rs2 ->
  (forall j, (j < k * (rows * (3 * cols)))%nat ->
     np.gauss rs1 (np.drawn rs1 + j)%nat = np.gauss rs2 (np.drawn rs2 + j)%nat) ->
  current_frame (state_after self img rs1 k) = current_frame (state_after self img rs2 k)
  /\ frames (state_after self img rs1 k) = frames (state_after self img rs2 k)
  /\ forall rs, np.drawn (random_state (state_after self img rs k))
                = (np.drawn rs + k * (rows * (3 * cols)))%nat
                /\ np.gauss (random_state (state_after self img rs k)) = np.gauss rs.
Proof.
  intros Hshape Hd. induction k as [|k IH]; intros Hg.
  - repeat split. cbn. lia.
  - destruct IH as (Hc & Hf & Hr); [intros j Hj; apply Hg; lia|].
    assert (Hr' : forall rs,
               np.drawn (random_state (state_after self img rs (S k)))
               = (np.drawn rs + S k * (rows * (3 * cols)))%nat
               /\ np.gauss (random_state (state_after self img rs (S k)))
                  = np.gauss rs).
    { intros rs. rewrite state_after_succ, loop_body_random_state.
      destruct (evolve_frame_drawn rows cols (evolution_strength self)
                  (current_frame (state_after self img rs k))
                  (IZR (Z.of_nat k) / IZR (total_frames self))
                  (random_state (state_after self img rs k))
                  (state_after_shape rows cols self img rs k Hshape)) as [E1 E2].
      destruct (Hr rs) as [E3 E4]. rewrite E1, E2, E3, E4. split; [lia|reflexivity]. }
    assert (Hc' : current_frame (state_after self img rs1 (S k))
                  = current_frame (state_after self img rs2 (S k))).
    { rewrite !state_after_succ, !loop_body_current, <- Hc. f_equal.
      apply (evolve_frame_ext rows cols).
      - apply state_after_shape, Hshape.
      - destruct (Hr rs1) as [-> _], (Hr rs2) as [-> _]. lia.
      - intros j Hj.
        destruct (Hr rs1) as [-> ->], (Hr rs2) as [-> ->].
        rewrite <- !Nat.add_assoc. apply Hg. lia. }
    split; [exact Hc'|]. split; [|exact Hr'].
    rewrite !state_after_succ, !loop_body_frames, <- !state_after_succ.
    rewrite Hf, Hc'. reflexivity.
Qed.

(** C9. Two runs on the same source with the same attributes, started from
    generators that stand at the same point and yield the same deviates over
    the [total_frames * rows * cols * 3] draws of the run (as two generators
    of one seed do), hand the same frames to the encoder. *)
Theorem C9_deterministic (self : EvolvingVideoCreator) (img : image Byte.byte)
        (rows cols : nat) (rs1 rs2 : np.RandomState) :
  has_shape rows cols img ->
  np.drawn rs1 = np.drawn rs2 ->
  (forall j, (j < Z.to_nat (total_frames self) * (rows * (3 * cols)))%nat ->
     np.gauss rs1 (np.drawn rs1 + j)%nat = np.gauss rs2 (np.drawn rs2 + j)%nat) ->
  frames (generate self img rs1) = frames (generate self img rs2)
  /\ create_evolving_video self img rs1 = create_evolving_video self img rs2.
Proof.
  intros Hshape Hd Hg.
  destruct (state_after_ext self img rows cols rs1 rs2
              (Z.to_nat (total_frames self)) Hshape Hd Hg) as (_ & Hf & _).
  rewrite <- !generate_state_after in Hf.
  split; [exact Hf|]. unfold create_evolving_video. rewrite Hf. reflexivity.
Qed.

(** C9 on the one-pixel run, whose only step draws three deviates. *)
Lemma C9_deterministic_witness :
  frames (generate one_frame_creator white_image silent_generator)
  = frames (generate one_frame_creator white_image silent_then_loud)
  /\ create_evolving_video one_frame_creator white_image silent_generator
     = create_evolving_video one_frame_creator white_image silent_then_loud.
Proof.
  apply (C9_deterministic one_frame_creator white_image 1 1
           silent_generator silent_then_loud).
  - split; [reflexivity|]. repeat constructor.
  - reflexivity.
  - change (Z.to_nat (total_frames one_frame_creator) * (1 * (3 * 1)))%nat
      with 3%nat.
    intros j Hj. cbn [np.gauss np.drawn silent_generator silent_then_loud Nat.add].
    destruct (Nat.ltb_spec j 3); [reflexivity|lia].
Defined.

(** ** Doubles against exact arithmetic *)

(** On the 512 columns of the default size, every frame of every slider run
    gets from the doubles of Python the position and the width of the exact
    arithmetic. *)
Lemma binary64_agrees_at_512 :
  forallb (Binary64.agrees 512) Binary64.slider_runs = true.
Proof. vm_compute. reflexivity. Qed.

(** Away from powers of two the double product can fall just short of an
    integer: with 100 columns and 100 frames, frame 29 starts at column 28.
    The slices of that run still reach every column. *)
Lemma binary64_falls_short_at_100 :
  Binary64.overwrite_position64 29 100 100 = 28
  /\ overwrite_position 29 100 100 = 29
  /\ Binary64.covers64 100 100 = true.
Proof. repeat split; vm_compute; reflexivity. Qed.

(** * Beyond the written specification

    Properties read off the code: the slices of a run, shapes and draws,
    the 8-bit conversion, the loop on doubles, the amplitudes of the colour
    stage, what the method prints, and the callback of the window. *)

Local Open Scope Z_scope.

(** ** The slices of a run (lines 36-42) *)

Lemma wraps_spec (i T W : Z) :
  wraps i T W = true <-> W < overwrite_position i T W + overwrite_width T W.
Proof. unfold wraps. apply Z.ltb_lt. Qed.

Lemma position_below_extent (i T W : Z) :
  0 <= i < T -> 1 <= W -> 0 <= overwrite_position i T W < W.
Proof.
  intros Hi HW. rewrite overwrite_position_exact by lia. split.
  - apply Z.div_pos; nia.
  - apply Z.div_lt_upper_bound; nia.
Qed.

Lemma width_at_most_extent (T W : Z) :
  2 <= T -> 1 <= W -> overwrite_width T W <= W.
Proof.
  intros HT HW. rewrite overwrite_width_exact by lia.
  assert (2 * W / T <= W) by (apply Z.div_le_upper_bound; nia). lia.
Qed.

(** Where the slices start: the first at column 0, every one at a column of
    the buffer, a later step never before an earlier one, and the next step
    no further than one width on, so that consecutive slices leave no gap
    (exact arithmetic; [W >= 1] is [self.output_size[1]]). *)
Theorem slice_start_in_range (i j T W : Z) :
  0 <= i <= j -> j < T -> 1 <= W ->
  overwrite_position 0 T W = 0
  /\ 0 <= overwrite_position i T W <= overwrite_position j T W
  /\ overwrite_position j T W < W
  /\ overwrite_position (i + 1) T W
     <= overwrite_position i T W + overwrite_width T W.
Proof.
  intros Hij HT HW.
  rewrite !overwrite_position_exact, overwrite_width_exact by lia.
  split; [reflexivity|]. split; [split|split].
  - apply Z.div_pos; nia.
  - apply Z.div_le_mono; nia.
  - apply Z.div_lt_upper_bound; nia.
  - apply position_step; lia.
Qed.

(** Steps 150 and 299 of the default run. *)
Lemma slice_start_in_range_witness :
  overwrite_position 0 300 512 = 0
  /\ 0 <= overwrite_position 150 300 512 <= overwrite_position 299 300 512
  /\ overwrite_position 299 300 512 < 512
  /\ overwrite_position (150 + 1) 300 512
     <= overwrite_position 150 300 512 + overwrite_width 300 512.
Proof. apply (slice_start_in_range 150 299 300 512); lia. Defined.

(** How wide a slice is: between 1 and [2 * W] columns; no wider than the
    buffer once the run has two frames; a single column when there are more
    frames than columns; at least two columns otherwise. *)
Theorem width_bounds (T W : Z) :
  1 <= T -> 1 <= W ->
  1 <= overwrite_width T W <= 2 * W
  /\ (2 <= T -> overwrite_width T W <= W)
  /\ (W < T -> overwrite_width T W = 1)
  /\ (T <= W -> 2 <= overwrite_width T W).
Proof.
  intros HT HW. rewrite overwrite_width_exact by lia.
  assert (H0 : 0 <= 2 * W / T) by (apply Z.div_pos; lia).
  assert (H1 : 2 * W / T <= 2 * W) by (apply Z.div_le_upper_bound; nia).
  split; [lia|]. split; [|split].
  - intros H2. assert (2 * W / T <= W) by (apply Z.div_le_upper_bound; nia). lia.
  - intros H2. assert (2 * W / T < 2) by (apply Z.div_lt_upper_bound; lia). lia.
  - intros H2. assert (2 <= 2 * W / T) by (apply Z.div_le_lower_bound; lia). lia.
Qed.

(** The default run: 300 frames over 512 columns. *)
Lemma width_bounds_witness :
  1 <= overwrite_width 300 512 <= 2 * 512
  /\ (2 <= 300 -> overwrite_width 300 512 <= 512)
  /\ (512 < 300 -> overwrite_width 300 512 = 1)
  /\ (300 <= 512 -> 2 <= overwrite_width 300 512).
Proof. apply (width_bounds 300 512); lia. Defined.

(** A step that wraps around: [overflow] is at least 1, less than the
    width and at most [W], so [:overflow] is a slice of the buffer; with two
    frames or more it ends at or before [overwrite_position], so the two
    parts do not overlap; and every later step of the run wraps as well. *)
Theorem wrap_around_bounds (i T W : Z) :
  0 <= i < T -> 1 <= W -> wraps i T W = true ->
  1 <= overflow i T W < overwrite_width T W
  /\ overflow i T W <= W
  /\ (2 <= T -> overflow i T W <= overwrite_position i T W)
  /\ forall j, i <= j < T -> wraps j T W = true.
Proof.
  intros Hi HW Hw. apply wraps_spec in Hw. unfold overflow.
  pose proof (position_below_extent i T W Hi HW) as Hp.
  pose proof (overwrite_width_pos T W) as Hw1.
  split; [lia|]. split; [|split].
  - destruct (Z.eq_dec T 1) as [->|].
    + assert (i = 0) by lia. subst i.
      rewrite overwrite_position_exact, overwrite_width_exact in * by lia.
      rewrite !Z.div_1_r in *. lia.
    + pose proof (width_at_most_extent T W ltac:(lia) HW). lia.
  - intros H2. pose proof (width_at_most_extent T W H2 HW). lia.
  - intros j Hj. apply wraps_spec.
    assert (overwrite_position i T W <= overwrite_position j T W).
    { rewrite !overwrite_position_exact by lia. apply Z.div_le_mono; nia. }
    lia.
Qed.

(** The last step of the default run. *)
Lemma wrap_around_bounds_witness :
  1 <= overflow 299 300 512 < overwrite_width 300 512
  /\ overflow 299 300 512 <= 512
  /\ (2 <= 300 -> overflow 299 300 512 <= overwrite_position 299 300 512)
  /\ forall j, 299 <= j < 300 -> wraps j 300 512 = true.
Proof. apply (wrap_around_bounds 299 300 512); [lia|lia|reflexivity]. Defined.

(** The two ends of a run: the slice of the last step reaches the end of
    the buffer; the first step does not wrap when the run has two frames or
    more; the only step of a one-frame run wraps, with [overflow = W]. *)
Theorem first_and_last_step (T W : Z) :
  1 <= T -> 1 <= W ->
  W <= overwrite_position (T - 1) T W + overwrite_width T W
  /\ (2 <= T -> wraps 0 T W = false)
  /\ (T = 1 -> wraps 0 T W = true /\ overflow 0 T W = W).
Proof.
  intros HT HW. split; [|split].
  - rewrite overwrite_position_exact, overwrite_width_exact by lia.
    pose proof (position_step (T - 1) T W ltac:(lia) ltac:(lia) ltac:(lia)) as H.
    replace ((T - 1 + 1) * W) with (W * T) in H by lia.
    rewrite Z.div_mul in H by lia. exact H.
  - intros H2. unfold wraps. apply Z.ltb_ge.
    pose proof (width_at_most_extent T W H2 HW).
    rewrite overwrite_position_exact by lia.
    rewrite Z.mul_0_l, Z.div_0_l by lia. lia.
  - intros ->. unfold wraps, overflow.
    rewrite overwrite_position_exact, overwrite_width_exact by lia.
    rewrite !Z.div_1_r. split; [apply Z.ltb_lt|]; lia.
Qed.

(** The default run. *)
Lemma first_and_last_step_witness :
  512 <= overwrite_position (300 - 1) 300 512 + overwrite_width 300 512
  /\ (2 <= 300 -> wraps 0 300 512 = false)
  /\ (300 = 1 -> wraps 0 300 512 = true /\ overflow 0 300 512 = 512).
Proof. apply (first_and_last_step 300 512); lia. Defined.

(** *** Counting the columns of a slice *)

Lemma range_succ (n : nat) :
  range (Z.of_nat (S n)) = range (Z.of_nat n) ++ [Z.of_nat n].
Proof.
  unfold range. rewrite !Nat2Z.id, seq_S, map_app. reflexivity.
Qed.

Lemma range_nonpos (n : Z) : n <= 0 -> range n = [].
Proof.
  intros H. unfold range. replace (Z.to_nat n) with 0%nat by lia. reflexivity.
Qed.

Lemma count_interval (a b : Z) (n : nat) :
  0 <= a ->
  Z.of_nat (length (filter (fun c => (a <=? c) && (c <? b)) (range (Z.of_nat n))))
  = Z.max 0 (Z.min (Z.of_nat n) b - a).
Proof.
  intros Ha. induction n as [|n IH].
  - simpl. lia.
  - rewrite range_succ, filter_app, length_app, Nat2Z.inj_add, IH.
    cbn [filter].
    destruct (Z.leb_spec a (Z.of_nat n)), (Z.ltb_spec (Z.of_nat n) b);
      cbn [andb length]; lia.
Qed.

Lemma count_two_ends (a b : Z) (n : nat) :
  0 <= b <= a ->
  Z.of_nat (length (filter (fun c => (a <=? c) || (c <? b)) (range (Z.of_nat n))))
  = Z.min (Z.of_nat n) b + Z.max 0 (Z.of_nat n - a).
Proof.
  intros Ha. induction n as [|n IH].
  - simpl. lia.
  - rewrite range_succ, filter_app, length_app, Nat2Z.inj_add, IH.
    cbn [filter].
    destruct (Z.leb_spec a (Z.of_nat n)), (Z.ltb_spec (Z.of_nat n) b);
      cbn [orb length]; lia.
Qed.

Lemma filter_range_ext (p q : Z -> bool) (n : Z) :
  (forall c, 0 <= c < n -> p c = q c) -> filter p (range n) = filter q (range n).
Proof.
  intros H. apply filter_ext_in. intros c Hc. apply H.
  unfold range in Hc. apply in_map_iff in Hc. destruct Hc as (k & <- & Hk).
  apply in_seq in Hk. lia.
Qed.

(** Every step assigns exactly [min overwrite_width W] columns of a buffer
    of [W] columns: [overwrite_width] of them whenever the run has two frames
    or more, wrapped or not. *)
Theorem columns_replaced_per_step (i T W : Z) :
  0 <= i < T -> 1 <= W ->
  Z.of_nat (length (replaced_columns W i T W)) = Z.min (overwrite_width T W) W.
Proof.
  intros Hi HW. unfold replaced_columns.
  pose proof (position_below_extent i T W Hi HW) as Hp.
  pose proof (overwrite_width_pos T W) as Hw1.
  destruct (wraps i T W) eqn:Hw.
  - rewrite (filter_range_ext _
               (fun c => (overwrite_position i T W <=? c)
                         || (c <? Z.min (overflow i T W) (overwrite_position i T W)))).
    2:{ intros c Hc. unfold in_region. rewrite Hw.
        destruct (Z.leb_spec 0 c), (Z.ltb_spec c W); lia. }
    apply wraps_spec in Hw.
    rewrite <- (Z2Nat.id W) at 1 by lia.
    rewrite count_two_ends by (unfold overflow; lia).
    rewrite Z2Nat.id by lia. unfold overflow.
    destruct (Z.eq_dec T 1) as [->|].
    + assert (i = 0) by lia. subst i.
      rewrite overwrite_position_exact, overwrite_width_exact in * by lia.
      rewrite !Z.div_1_r in *. lia.
    + pose proof (width_at_most_extent T W ltac:(lia) HW). lia.
  - rewrite (filter_range_ext _
               (fun c => (overwrite_position i T W <=? c)
                         && (c <? overwrite_position i T W + overwrite_width T W))).
    2:{ intros c Hc. unfold in_region. rewrite Hw.
        destruct (Z.leb_spec 0 c), (Z.ltb_spec c W); lia. }
    unfold wraps in Hw. apply Z.ltb_ge in Hw.
    rewrite <- (Z2Nat.id W) at 1 by lia.
    rewrite count_interval by lia.
    rewrite Z2Nat.id by lia. lia.
Qed.

(** The last step of the default run: three columns, two at the right end
    and one at the left. *)
Lemma columns_replaced_per_step_witness :
  Z.of_nat (length (replaced_columns 512 299 300 512))
  = Z.min (overwrite_width 300 512) 512.
Proof. apply (columns_replaced_per_step 299 300 512); lia. Defined.

(** ** Shapes and draws *)

Lemma frame_to_save_shape rows cols (a : image R) :
  has_shape rows cols a -> has_shape rows cols (frame_to_save a).
Proof. intros H. apply has_shape_map2, H. Qed.

(** The transform returns an array of the shape of its argument and
    advances the generator by one deviate per sample, [rows * cols * 3],
    whatever the strength and the progress; the deviates to come are
    untouched. *)
Theorem evolve_frame_shape_and_draws (rows cols : nat) (strength : R)
        (frame : image R) (progress : R) (rs : np.RandomState) :
  has_shape rows cols frame ->
  has_shape rows cols (fst (evolve_frame strength frame progress rs))
  /\ np.drawn (snd (evolve_frame strength frame progress rs))
     = (np.drawn rs + rows * cols * 3)%nat
  /\ np.gauss (snd (evolve_frame strength frame progress rs)) = np.gauss rs.
Proof.
  intros H. split; [apply evolve_frame_shape, H|].
  destruct (evolve_frame_drawn rows cols strength frame progress rs H) as [Hd Hg].
  split; [rewrite Hd; lia|exact Hg].
Qed.

(** One row of two pixels. *)
Lemma evolve_frame_shape_and_draws_witness :
  has_shape 1 2 (fst (evolve_frame 0 black_and_white 0 silent_generator))
  /\ np.drawn (snd (evolve_frame 0 black_and_white 0 silent_generator))
     = (np.drawn silent_generator + 1 * 2 * 3)%nat
  /\ np.gauss (snd (evolve_frame 0 black_and_white 0 silent_generator))
     = np.gauss silent_generator.
Proof.
  apply (evolve_frame_shape_and_draws 1 2 0 black_and_white 0 silent_generator).
  split; [reflexivity|]. repeat constructor.
Defined.

(** After any number [k] of iterations the persistent buffer and every
    frame emitted so far have the shape of the source, whatever
    [output_size[1]] is, and the generator has moved on by
    [k * rows * cols * 3] deviates. *)
Theorem run_keeps_shape_and_counts_draws (self : EvolvingVideoCreator)
        (img : image Byte.byte) (rs : np.RandomState) (rows cols k : nat) :
  has_shape rows cols img ->
  has_shape rows cols (current_frame (state_after self img rs k))
  /\ Forall (has_shape rows cols) (frames (state_after self img rs k))
  /\ np.drawn (random_state (state_after self img rs k))
     = (np.drawn rs + k * (rows * cols * 3))%nat
  /\ np.gauss (random_state (state_after self img rs k)) = np.gauss rs.
Proof.
  intros H. split; [apply state_after_shape, H|]. split; [|].
  - induction k as [|k IH]; [constructor|].
    rewrite state_after_succ, loop_body_frames, <- state_after_succ.
    apply Forall_app. split; [exact IH|].
    constructor; [|constructor].
    apply frame_to_save_shape, state_after_shape, H.
  - induction k as [|k [IHd IHg]]; [cbn; split; [lia|reflexivity]|].
    rewrite state_after_succ, loop_body_random_state.
    destruct (evolve_frame_drawn rows cols (evolution_strength self)
                (current_frame (state_after self img rs k))
                (IZR (Z.of_nat k) / IZR (total_frames self))
                (random_state (state_after self img rs k))
                (state_after_shape rows cols self img rs k H)) as [Hd Hg].
    split; [rewrite Hd, IHd; lia|rewrite Hg; exact IHg].
Qed.

(** The default run on a source of one pixel: 900 deviates. *)
Lemma run_keeps_shape_and_counts_draws_witness :
  has_shape 1 1
    (current_frame (state_after default_creator black_image silent_generator 300))
  /\ Forall (has_shape 1 1)
       (frames (state_after default_creator black_image silent_generator 300))
  /\ np.drawn (random_state
                 (state_after default_creator black_image silent_generator 300))
     = (np.drawn silent_generator + 300 * (1 * 1 * 3))%nat
  /\ np.gauss (random_state
                 (state_after default_creator black_image silent_generator 300))
     = np.gauss silent_generator.
Proof.
  apply (run_keeps_shape_and_counts_draws default_creator black_image
           silent_generator 1 1 300).
  split; [reflexivity|]. repeat constructor.
Defined.

(** ** The 8-bit conversion against the normalisation *)

Local Open Scope R_scope.

Lemma quantize_normalized (b : Byte.byte) :
  np.astype_uint8 (IZR (uint8_value b) / 255 * 255) = uint8_value b.
Proof.
  replace (IZR (uint8_value b) / 255 * 255) with (IZR (uint8_value b))
    by (field; lra).
  destruct (uint8_value_bounds b) as [H0 _]. apply IZR_le in H0.
  rewrite astype_uint8_floor by exact H0. apply Int_part_IZR.
Qed.

Lemma frame_to_save_normalize (img : image Byte.byte) :
  frame_to_save (normalize img) = imap uint8_value img.
Proof.
  unfold frame_to_save, normalize. rewrite imap_imap.
  apply (imap_ext_samples (fun _ => True)).
  - intros b _. apply quantize_normalized.
  - apply all_samples_trivial. auto.
Qed.

(** Line 51 undoes line 28: the 8-bit conversion of the normalised source
    is the source, byte for byte; a run of no iteration leaves exactly that
    buffer. *)
Theorem source_round_trip (self : EvolvingVideoCreator) (img : image Byte.byte)
        (rs : np.RandomState) :
  frame_to_save (normalize img) = imap uint8_value img
  /\ frame_to_save (current_frame (state_after self img rs 0))
     = imap uint8_value img.
Proof. split; apply frame_to_save_normalize. Qed.

Local Open Scope Z_scope.

Lemma normalize_uniform (rows cols : nat) (b : Byte.byte) :
  normalize (uniform rows cols (b, b, b))
  = uniform rows cols (IZR (uint8_value b) / 255, IZR (uint8_value b) / 255,
                       IZR (uint8_value b) / 255)%R.
Proof.
  unfold normalize, uniform, imap. rewrite !map_repeat. reflexivity.
Qed.

(** A source of one grey level with the strength at 0: after any number
    [k] of iterations the persistent buffer is still the normalised source,
    and each of the [k] frames emitted is the source itself. *)
Theorem grey_source_without_noise (self : EvolvingVideoCreator) (rows cols : nat)
        (b : Byte.byte) (rs : np.RandomState) (k : nat) :
  evolution_strength self = 0%R ->
  let img := uniform rows cols (b, b, b) in
  current_frame (state_after self img rs k) = normalize img
  /\ frames (state_after self img rs k) = repeat (imap uint8_value img) k.
Proof.
  intros Hs img.
  assert (Hx : in01 (IZR (uint8_value b) / 255)%R).
  { destruct (uint8_value_bounds b) as [H0 H1].
    apply IZR_le in H0, H1. unfold in01. lra. }
  assert (E : forall n, current_frame (state_after self img rs n) = normalize img).
  { induction n as [|n IH]; [reflexivity|].
    rewrite state_after_succ, loop_body_current, IH, Hs.
    unfold img. rewrite normalize_uniform.
    rewrite evolve_frame_uniform_gray by exact Hx.
    apply overwrite_same. }
  split; [apply E|].
  induction k as [|k IH]; [reflexivity|].
  rewrite state_after_succ, loop_body_frames, <- state_after_succ, IH, E.
  rewrite frame_to_save_normalize.
  change (repeat (imap uint8_value img) k ++ [imap uint8_value img])
    with (repeat (imap uint8_value img) k ++ repeat (imap uint8_value img) 1).
  rewrite <- repeat_app. f_equal. lia.
Qed.

(** Mid-grey, 2 x 2, the 300 frames of the default run. *)
Lemma grey_source_without_noise_witness :
  let img := uniform 2 2 (x80, x80, x80) in
  current_frame (state_after quiet_creator img silent_generator 300) = normalize img
  /\ frames (state_after quiet_creator img silent_generator 300)
     = repeat (imap uint8_value img) 300.
Proof.
  apply (grey_source_without_noise quiet_creator 2 2 x80 silent_generator 300).
  reflexivity.
Defined.

(** With the strength at 0 the frames do not depend on the generator: two
    runs on one source hand the same frames to the encoder, whatever the
    deviates the two generators hold. *)
Theorem strength_0_ignores_the_generator (self : EvolvingVideoCreator)
        (img : image Byte.byte) (rs1 rs2 : np.RandomState) :
  evolution_strength self = 0%R ->
  frames (generate self img rs1) = frames (generate self img rs2)
  /\ create_evolving_video self img rs1 = create_evolving_video self img rs2.
Proof.
  intros Hs.
  assert (E : forall k,
            current_frame (state_after self img rs1 k)
            = current_frame (state_after self img rs2 k)
            /\ frames (state_after self img rs1 k)
               = frames (state_after self img rs2 k)).
  { induction k as [|k [IHc IHf]]; [split; reflexivity|].
    assert (Ec : current_frame (state_after self img rs1 (S k))
                 = current_frame (state_after self img rs2 (S k))).
    { rewrite !state_after_succ, !loop_body_current, Hs.
      rewrite !evolve_frame_strength_0 by apply state_after_in01.
      rewrite IHc. reflexivity. }
    split; [exact Ec|].
    rewrite !state_after_succ, !loop_body_frames, <- !state_after_succ.
    rewrite Ec, IHf. reflexivity. }
  assert (F : frames (generate self img rs1) = frames (generate self img rs2))
    by (rewrite !generate_state_after; apply E).
  split; [exact F|]. unfold create_evolving_video. rewrite F. reflexivity.
Qed.

(** The default run without noise on a black pixel, from two generators
    that differ from their fourth deviate on. *)
Lemma strength_0_ignores_the_generator_witness :
  frames (generate quiet_creator black_image silent_generator)
  = frames (generate quiet_creator black_image silent_then_loud)
  /\ create_evolving_video quiet_creator black_image silent_generator
     = create_evolving_video quiet_creator black_image silent_then_loud.
Proof.
  apply (strength_0_ignores_the_generator quiet_creator black_image
           silent_generator silent_then_loud).
  reflexivity.
Defined.

(** * The loop on doubles

    The merge, the frame-to-frame change, the columns a run over a size
    that is not square never reaches, and the frame count, all with the
    positions, the widths and the frame count as Python computes them. *)

Local Open Scope Z_scope.

(** ** The merge for any position and width *)

Lemma overwrite_is_overwrite_at {A : Type} (i T W : Z) (cur ev : list (list A)) :
  overwrite i T W cur ev
  = overwrite_at (overwrite_position i T W) (overwrite_width T W) W cur ev.
Proof. reflexivity. Qed.

Section OverwriteAt.

Context {A : Type}.
Implicit Types cur ev : list (list A).

Lemma column_overwrite_at n pos w W cur ev c :
  1 <= w ->
  length cur = length ev ->
  Forall (fun r => length r = n) cur -> Forall (fun r => length r = n) ev ->
  (c < n)%nat ->
  column c (overwrite_at pos w W cur ev)
  = if (if W <? pos + w
        then (pos <=? Z.of_nat c) || (Z.of_nat c <? pos + w - W)
        else (pos <=? Z.of_nat c) && (Z.of_nat c <? pos + w))
    then column c ev else column c cur.
Proof.
  intros Hw L Hc He Hcn. unfold overwrite_at.
  destruct (W <? pos + w).
  - rewrite (column_zip_with _ n c (Z.of_nat c <? pos + w - W)).
    + rewrite (column_zip_with _ n c (pos <=? Z.of_nat c)); auto.
      * destruct (pos <=? Z.of_nat c), (Z.of_nat c <? pos + w - W); reflexivity.
      * intros d s Ld Ls. rewrite nth_error_assign_from by lia.
        destruct (Nat.leb_spec (Z.to_nat pos) c), (Z.leb_spec pos (Z.of_nat c));
          try lia; reflexivity.
    + rewrite length_zip_with; assumption.
    + eapply Forall_zip_with; [| exact Hc | exact He].
      cbv beta. intros x y Hx Hy. rewrite length_assign_from; lia.
    + assumption.
    + intros d s Ld Ls. rewrite nth_error_assign_upto by lia.
      destruct (Nat.ltb_spec c (Z.to_nat (pos + w - W))),
               (Z.ltb_spec (Z.of_nat c) (pos + w - W)); try lia; reflexivity.
  - rewrite (column_zip_with _ n c ((pos <=? Z.of_nat c) && (Z.of_nat c <? pos + w)));
      auto.
    intros d s Ld Ls. rewrite nth_error_assign_slice by lia.
    destruct (Nat.leb_spec (Z.to_nat pos) c), (Z.leb_spec pos (Z.of_nat c));
      destruct (Nat.ltb_spec c (Z.to_nat (pos + w))),
               (Z.ltb_spec (Z.of_nat c) (pos + w)); try lia; reflexivity.
Qed.

Lemma overwrite_at_shape rows cols pos w W cur ev :
  1 <= w ->
  length cur = rows /\ Forall (fun r => length r = cols) cur ->
  length ev = rows /\ Forall (fun r => length r = cols) ev ->
  length (overwrite_at pos w W cur ev) = rows
  /\ Forall (fun r => length r = cols) (overwrite_at pos w W cur ev).
Proof.
  intros Hw [Lc Fc] [Le Fe]. unfold overwrite_at.
  destruct (W <? _).
  - assert (F1 : Forall (fun r => length r = cols)
                   (zip_with (assign_from (Z.to_nat pos)) cur ev)).
    { eapply Forall_zip_with; [|exact Fc|exact Fe].
      cbv beta. intros x y Hx Hy. rewrite length_assign_from; lia. }
    split.
    + rewrite !length_zip_with; rewrite ?length_zip_with; lia.
    + eapply Forall_zip_with; [|exact F1|exact Fe].
      cbv beta. intros x y Hx Hy. rewrite length_assign_upto; lia.
  - split.
    + rewrite length_zip_with; lia.
    + eapply Forall_zip_with; [|exact Fc|exact Fe].
      cbv beta. intros x y Hx Hy. rewrite length_assign_slice; lia.
Qed.

End OverwriteAt.

(** ** Steps and frames *)

Lemma overwrite_width64_pos (T W : Z) : 1 <= Binary64.overwrite_width64 T W.
Proof. unfold Binary64.overwrite_width64. lia. Qed.

Lemma loop_body64_frames self T i st :
  frames (loop_body64 self T i st)
  = frames st ++ [frame_to_save (current_frame (loop_body64 self T i st))].
Proof.
  unfold loop_body64. destruct (evolve_frame _ _ _ _) as [ev rs]. reflexivity.
Qed.

Lemma loop_body64_current self T i st :
  current_frame (loop_body64 self T i st)
  = overwrite_at (Binary64.overwrite_position64 i T (scan_extent self))
      (Binary64.overwrite_width64 T (scan_extent self)) (scan_extent self)
      (current_frame st)
      (fst (evolve_frame (evolution_strength self) (current_frame st)
                         (IZR i / IZR T) (random_state st))).
Proof.
  unfold loop_body64. destruct (evolve_frame _ _ _ _) as [ev rs]. reflexivity.
Qed.

Lemma loop_from64_app self T a b i st :
  loop_from64 self T (a + b) i st
  = loop_from64 self T b (i + Z.of_nat a) (loop_from64 self T a i st).
Proof.
  revert i st. induction a as [|a IH]; intros i st.
  - simpl. f_equal. lia.
  - cbn [Nat.add loop_from64]. rewrite IH. f_equal. lia.
Qed.

Lemma state_after64_succ self T img rs k :
  state_after64 self T img rs (S k)
  = loop_body64 self T (Z.of_nat k) (state_after64 self T img rs k).
Proof.
  unfold state_after64. replace (S k) with (k + 1)%nat by lia.
  rewrite loop_from64_app. reflexivity.
Qed.

Lemma state_after64_shape rows cols self T img rs k :
  has_shape rows cols img ->
  has_shape rows cols (current_frame (state_after64 self T img rs k)).
Proof.
  intros H. induction k as [|k IH].
  - apply normalize_shape, H.
  - rewrite state_after64_succ, loop_body64_current.
    apply overwrite_at_shape; [apply overwrite_width64_pos|exact IH|].
    apply evolve_frame_shape, IH.
Qed.

Lemma state_after64_frames_length self T img rs k :
  length (frames (state_after64 self T img rs k)) = k.
Proof.
  induction k as [|k IH]; [reflexivity|].
  rewrite state_after64_succ, loop_body64_frames, length_app, IH. simpl. lia.
Qed.

Lemma state_after64_frames_prefix self T img rs k n :
  exists l, frames (state_after64 self T img rs (k + n))
            = frames (state_after64 self T img rs k) ++ l.
Proof.
  induction n as [|n [l IH]].
  - exists []. rewrite Nat.add_0_r, app_nil_r. reflexivity.
  - replace (k + S n)%nat with (S (k + n)) by lia.
    rewrite state_after64_succ, loop_body64_frames, IH, <- app_assoc. eauto.
Qed.

Lemma state_after64_nth_frame self T img rs n k :
  (k < n)%nat ->
  nth_error (frames (state_after64 self T img rs n)) k
  = Some (frame_to_save (current_frame (state_after64 self T img rs (S k)))).
Proof.
  intros Hk.
  destruct (state_after64_frames_prefix self T img rs (S k) (n - S k)) as [l E].
  replace (S k + (n - S k))%nat with n in E by lia. rewrite E.
  rewrite nth_error_app1 by (rewrite state_after64_frames_length; lia).
  rewrite state_after64_succ at 1. rewrite loop_body64_frames, <- state_after64_succ.
  rewrite nth_error_app2 by (rewrite state_after64_frames_length; lia).
  rewrite state_after64_frames_length, Nat.sub_diag. reflexivity.
Qed.

(** What a step of the loop on doubles leaves in column [c]. *)
Lemma column_loop_body64 self T i st rows cols c :
  has_shape rows cols (current_frame st) ->
  (c < cols)%nat ->
  column c (current_frame (loop_body64 self T i st))
  = if Binary64.in_region64 (Z.of_nat cols) i T (scan_extent self) (Z.of_nat c)
    then column c (fst (evolve_frame (evolution_strength self) (current_frame st)
                          (IZR i / IZR T) (random_state st)))
    else column c (current_frame st).
Proof.
  intros Hshape Hc. rewrite loop_body64_current.
  destruct (evolve_frame_shape rows cols (evolution_strength self)
              (current_frame st) (IZR i / IZR T) (random_state st) Hshape)
    as [L' F'].
  destruct Hshape as [L F].
  rewrite (column_overwrite_at cols)
    by (try assumption; try apply overwrite_width64_pos; lia).
  unfold Binary64.in_region64.
  replace (0 <=? Z.of_nat c) with true by (symmetry; apply Z.leb_le; lia).
  replace (Z.of_nat c <? Z.of_nat cols) with true by (symmetry; apply Z.ltb_lt; lia).
  reflexivity.
Qed.

(** ** The sign of the position on doubles *)

Lemma binary_round_aux_sign_clear (m e : Z) (l : location) :
  sign_clear (binary_round_aux prec emax false m e l).
Proof.
  unfold binary_round_aux.
  destruct (shr_fexp prec emax m e l) as [a b].
  destruct (shr_fexp prec emax _ b loc_Exact) as [a' b'].
  destruct (shr_m a'); cbn; auto.
  destruct (_ <=? _); cbn; auto.
Qed.

Lemma of_Z_sign_clear (z : Z) : sign_clear (Prim2SF (Binary64.of_Z z)).
Proof.
  unfold Binary64.of_Z. rewrite of_uint63_spec.
  pose proof (Uint63.to_Z_bounded (Uint63.of_Z z)) as [H _].
  unfold binary_normalize.
  destruct (Uint63.to_Z (Uint63.of_Z z)) as [|p|p]; [reflexivity| |lia].
  unfold binary_round. destruct (shl_align _ _ _) as [mz ez].
  apply binary_round_aux_sign_clear.
Qed.

Lemma div_sign_clear (x y : float) :
  sign_clear (Prim2SF x) -> sign_clear (Prim2SF y) ->
  sign_clear (Prim2SF (PrimFloat.div x y)).
Proof.
  rewrite div_spec. unfold SF64div, SFdiv.
  destruct (Prim2SF x) as [sx|sx| |sx mx ex], (Prim2SF y) as [sy|sy| |sy my ey];
    cbn; intros Hx Hy; subst; auto.
  destruct (SFdiv_core_binary _ _ _ _ _ _) as [[mz ez] lz].
  apply binary_round_aux_sign_clear.
Qed.

Lemma mul_sign_clear (x y : float) :
  sign_clear (Prim2SF x) -> sign_clear (Prim2SF y) ->
  sign_clear (Prim2SF (PrimFloat.mul x y)).
Proof.
  rewrite mul_spec. unfold SF64mul, SFmul.
  destruct (Prim2SF x) as [sx|sx| |sx mx ex], (Prim2SF y) as [sy|sy| |sy my ey];
    cbn; intros Hx Hy; subst; auto.
  apply binary_round_aux_sign_clear.
Qed.

Lemma trunc_nonneg (x : float) : sign_clear (Prim2SF x) -> 0 <= Binary64.trunc x.
Proof.
  unfold Binary64.trunc. destruct (Prim2SF x) as [s|s| |s m e]; cbn; try lia.
  intros ->. destruct (0 <=? e).
  - apply Z.shiftl_nonneg. lia.
  - apply Z.shiftr_nonneg. lia.
Qed.

Lemma overwrite_position64_nonneg (i T W : Z) :
  0 <= Binary64.overwrite_position64 i T W.
Proof.
  unfold Binary64.overwrite_position64.
  apply trunc_nonneg, mul_sign_clear; [apply div_sign_clear|];
    apply of_Z_sign_clear.
Qed.

Lemma column_imap {A B : Type} (f : A -> B) (c : nat) (a : image A) :
  column c (imap f a) = map (option_map (pmap f)) (column c a).
Proof.
  unfold column, imap. rewrite !map_map. apply map_ext. intros row.
  apply nth_error_map.
Qed.

(** ** The slice on doubles *)

(** On doubles, whatever the frame index, the frame count and the extent
    (below [2^63], where [float(int)] is the conversion modelled): the
    position of line 36 is never negative and the width of line 37 is at
    least 1, so both bounds of every slice count from the left end of the
    axis. *)
Theorem slice_bounds_on_doubles (i T W : Z) :
  0 <= i < T -> T < 2 ^ 63 -> 0 <= W < 2 ^ 63 ->
  0 <= Binary64.overwrite_position64 i T W
  /\ 1 <= Binary64.overwrite_width64 T W.
Proof.
  intros _ _ _. split.
  - apply overwrite_position64_nonneg.
  - apply overwrite_width64_pos.
Qed.

(** Step 15 of 22 over 22 columns, where the double product falls short of
    15. *)
Lemma slice_bounds_on_doubles_witness :
  0 <= Binary64.overwrite_position64 15 22 22
  /\ 1 <= Binary64.overwrite_width64 22 22.
Proof. apply (slice_bounds_on_doubles 15 22 22); lia. Defined.

(** ** The normal case of the merge (lines 45-48) *)

(** At a step [i] of [0, T) that takes the normal branch
    ([overwrite_position + overwrite_width <= W], both as Python computes
    them on doubles), on a buffer of any number [cols] of columns: the
    persistent buffer after the step has the evolved frame's columns in
    [overwrite_position, overwrite_position + overwrite_width) and its own
    columns of before the step everywhere else. *)
Theorem normal_case_merge (self : EvolvingVideoCreator) (st : loop_state)
        (i T : Z) (rows cols : nat) :
  0 <= i < T ->
  has_shape rows cols (current_frame st) ->
  let W := scan_extent self in
  let overwrite_position := Binary64.overwrite_position64 i T W in
  let overwrite_width := Binary64.overwrite_width64 T W in
  overwrite_position + overwrite_width <= W ->
  let evolved_frame :=
    fst (evolve_frame (evolution_strength self) (current_frame st)
                      (IZR i / IZR T) (random_state st)) in
  let st' := loop_body64 self T i st in
  (forall c, 0 <= c < Z.of_nat cols ->
     overwrite_position <= c < overwrite_position + overwrite_width ->
     column (Z.to_nat c) (current_frame st') = column (Z.to_nat c) evolved_frame)
  /\ (forall c, 0 <= c < Z.of_nat cols ->
        c < overwrite_position \/ overwrite_position + overwrite_width <= c ->
        column (Z.to_nat c) (current_frame st')
        = column (Z.to_nat c) (current_frame st)).
Proof.
  intros Hi Hshape W pos w Hnormal evolved_frame st'.
  assert (Hcol : forall c, 0 <= c < Z.of_nat cols ->
            column (Z.to_nat c) (current_frame st')
            = if (pos <=? c) && (c <? pos + w)
              then column (Z.to_nat c) evolved_frame
              else column (Z.to_nat c) (current_frame st)).
  { intros c Hc. unfold st', evolved_frame.
    rewrite (column_loop_body64 self T i st rows cols) by (try assumption; lia).
    unfold Binary64.in_region64. rewrite !Z2Nat.id by lia. fold W pos w. cbv zeta.
    replace (0 <=? c) with true by (symmetry; apply Z.leb_le; lia).
    replace (c <? Z.of_nat cols) with true by (symmetry; apply Z.ltb_lt; lia).
    replace (W <? pos + w) with false by (symmetry; apply Z.ltb_ge; lia).
    reflexivity. }
  split.
  - intros c Hc Hin. rewrite (Hcol c Hc).
    destruct (Z.leb_spec pos c), (Z.ltb_spec c (pos + w)); try reflexivity; lia.
  - intros c Hc Hout. rewrite (Hcol c Hc).
    destruct (Z.leb_spec pos c), (Z.ltb_spec c (pos + w)); try reflexivity; lia.
Qed.

(** The first step of the default run, on a source of one row. *)
Lemma normal_case_merge_witness :
  let self := default_creator in
  let st := mkLoop (normalize black_row_512) [] silent_generator in
  let i := 0 in
  let T := 300 in
  let W := scan_extent self in
  let overwrite_position := Binary64.overwrite_position64 i T W in
  let overwrite_width := Binary64.overwrite_width64 T W in
  let evolved_frame :=
    fst (evolve_frame (evolution_strength self) (current_frame st)
                      (IZR i / IZR T) (random_state st)) in
  let st' := loop_body64 self T i st in
  (forall c, 0 <= c < Z.of_nat 512 ->
     overwrite_position <= c < overwrite_position + overwrite_width ->
     column (Z.to_nat c) (current_frame st') = column (Z.to_nat c) evolved_frame)
  /\ (forall c, 0 <= c < Z.of_nat 512 ->
        c < overwrite_position \/ overwrite_position + overwrite_width <= c ->
        column (Z.to_nat c) (current_frame st')
        = column (Z.to_nat c) (current_frame st)).
Proof.
  apply (normal_case_merge default_creator
           (mkLoop (normalize black_row_512) [] silent_generator) 0 300 1 512).
  - lia.
  - apply normalize_shape. split; [reflexivity|].
    constructor; [|constructor]. rewrite repeat_length. reflexivity.
  - vm_compute. discriminate.
Defined.

(** ** Slices past the last column *)

Section PastTheEnd.

Context {A : Type}.

Lemma assign_slice_past (a b : nat) (dst src : list A) :
  (length dst <= a)%nat -> (length src <= a)%nat -> assign_slice a b dst src = dst.
Proof.
  intros Hd Hs. unfold assign_slice.
  rewrite firstn_all2 by lia.
  rewrite (skipn_all2 src) by lia.
  rewrite (skipn_all2 dst) by lia.
  rewrite firstn_nil, !app_nil_r. reflexivity.
Qed.

Lemma zip_with_left (f : list A -> list A -> list A) (n : nat)
      (cur ev : list (list A)) :
  length cur = length ev ->
  Forall (fun r => length r = n) cur -> Forall (fun r => length r = n) ev ->
  (forall d s, length d = n -> length s = n -> f d s = d) ->
  zip_with f cur ev = cur.
Proof.
  intros L Hc He Hf. revert ev L He.
  induction Hc as [|d cur Hd Hc IH]; intros [|s ev] L He; simpl in *;
    try discriminate; [reflexivity|].
  apply Forall_cons_iff in He. destruct He as [Hs He].
  rewrite Hf by assumption. rewrite IH by (auto; lia). reflexivity.
Qed.

Lemma overwrite_at_past_the_end (n : nat) (pos w W : Z) (cur ev : list (list A)) :
  length cur = length ev ->
  Forall (fun r => length r = n) cur -> Forall (fun r => length r = n) ev ->
  pos + w <= W -> Z.of_nat n <= pos ->
  overwrite_at pos w W cur ev = cur.
Proof.
  intros L Hc He Hw Hp. unfold overwrite_at.
  replace (W <? pos + w) with false by (symmetry; apply Z.ltb_ge; lia).
  apply (zip_with_left _ n); try assumption.
  intros d s Hd Hs. apply assign_slice_past; lia.
Qed.

End PastTheEnd.

(** When the position Python computes is at or past the number of columns
    of the buffer (possible when [output_size[1]] exceeds [output_size[0]],
    the number of columns [cv2.resize] gives the buffer) and the step takes
    the normal branch, lines 47-48 assign nothing (a slice past the end of an
    axis is empty): the buffer stays as it was, and the frame the step emits
    is the 8-bit conversion of that unchanged buffer. *)
Theorem step_past_the_last_column (self : EvolvingVideoCreator) (st : loop_state)
        (i T : Z) (rows cols : nat) :
  0 <= i < T ->
  has_shape rows cols (current_frame st) ->
  Binary64.overwrite_position64 i T (scan_extent self)
  + Binary64.overwrite_width64 T (scan_extent self) <= scan_extent self ->
  Z.of_nat cols <= Binary64.overwrite_position64 i T (scan_extent self) ->
  current_frame (loop_body64 self T i st) = current_frame st
  /\ frames (loop_body64 self T i st)
     = frames st ++ [frame_to_save (current_frame st)].
Proof.
  intros Hi Hshape Hw Hp.
  assert (E : current_frame (loop_body64 self T i st) = current_frame st).
  { rewrite loop_body64_current.
    destruct (evolve_frame_shape rows cols (evolution_strength self)
                (current_frame st) (IZR i / IZR T) (random_state st) Hshape)
      as [L' F'].
    destruct Hshape as [L F].
    apply (overwrite_at_past_the_end cols); try assumption. lia. }
  split; [exact E|]. rewrite loop_body64_frames, E. reflexivity.
Qed.

(** Size (2, 4), four frames: step 2 starts at column 2 of a buffer of two
    columns. *)
Lemma step_past_the_last_column_witness :
  current_frame (loop_body64 tall_creator 4 2
                   (mkLoop (uniform 4 2 (0, 0, 0)%R) [] silent_generator))
  = uniform 4 2 (0, 0, 0)%R
  /\ frames (loop_body64 tall_creator 4 2
               (mkLoop (uniform 4 2 (0, 0, 0)%R) [] silent_generator))
     = [] ++ [frame_to_save (uniform 4 2 (0, 0, 0)%R)].
Proof.
  apply (step_past_the_last_column tall_creator
           (mkLoop (uniform 4 2 (0, 0, 0)%R) [] silent_generator) 2 4 4 2).
  - lia.
  - split; [reflexivity|]. repeat constructor.
  - vm_compute. discriminate.
  - vm_compute. discriminate.
Defined.

(** ** From one frame of the video to the next *)

(** Frame [i] of the video differs from the picture before it (frame
    [i - 1], or the source itself for the first frame) only inside the slice
    step [i] takes on doubles: every other column is the same, byte for
    byte. *)
Theorem frames_change_only_in_the_slice (self : EvolvingVideoCreator) (T : Z)
        (img : image Byte.byte) (rs : np.RandomState) (rows cols i : nat) (c : Z) :
  (i < Z.to_nat T)%nat ->
  has_shape rows cols img ->
  0 <= c < Z.of_nat cols ->
  Binary64.in_region64 (Z.of_nat cols) (Z.of_nat i) T (scan_extent self) c = false ->
  exists before frame,
    nth_error (imap uint8_value img :: frames (generate64 self T img rs)) i
    = Some before
    /\ nth_error (frames (generate64 self T img rs)) i = Some frame
    /\ column (Z.to_nat c) frame = column (Z.to_nat c) before.
Proof.
  intros Hi Hshape Hc Hout.
  exists (frame_to_save (current_frame (state_after64 self T img rs i))),
         (frame_to_save (current_frame (state_after64 self T img rs (S i)))).
  split; [|split].
  - destruct i as [|j].
    + cbn [nth_error]. f_equal. symmetry. apply frame_to_save_normalize.
    + cbn [nth_error]. apply state_after64_nth_frame. lia.
  - apply state_after64_nth_frame. exact Hi.
  - unfold frame_to_save. rewrite !column_imap. f_equal.
    rewrite state_after64_succ.
    rewrite (column_loop_body64 self T (Z.of_nat i) _ rows cols)
      by (try apply state_after64_shape; try assumption; lia).
    rewrite !Z2Nat.id by lia. rewrite Hout. reflexivity.
Qed.

(** The first frame of the default run, whose slice is columns 0 to 2:
    column 100 is the source's. *)
Lemma frames_change_only_in_the_slice_witness :
  exists before frame,
    nth_error (imap uint8_value black_row_512
                 :: frames (generate64 default_creator 300 black_row_512
                              silent_generator)) 0
    = Some before
    /\ nth_error (frames (generate64 default_creator 300 black_row_512
                            silent_generator)) 0
       = Some frame
    /\ column (Z.to_nat 100) frame = column (Z.to_nat 100) before.
Proof.
  apply (frames_change_only_in_the_slice default_creator 300 black_row_512
           silent_generator 1 512 0 100).
  - vm_compute. lia.
  - split; [reflexivity|]. constructor; [|constructor].
    rewrite repeat_length. reflexivity.
  - vm_compute. split; [discriminate|reflexivity].
  - vm_compute. reflexivity.
Defined.

(** ** Columns the scan never reaches *)

Lemma wide_run_misses (i c : Z) :
  0 <= i < 4 -> 2 <= c < 4 -> Binary64.in_region64 4 i 4 2 c = false.
Proof.
  intros Hi Hc.
  assert (Ei : i = 0 \/ i = 1 \/ i = 2 \/ i = 3) by lia.
  assert (Ec : c = 2 \/ c = 3) by lia.
  destruct Ei as [-> | [-> | [-> | ->]]], Ec as [-> | ->];
    vm_compute; reflexivity.
Qed.

(** C2. With [output_size = (4, 2)], [fps = 4] and [duration = 1] the
    resized buffer has 2 rows of 4 columns, the run has 4 frames, and the
    loop scans an extent of [output_size[1] = 2]: columns 2 and 3 of the
    buffer are in the slice of no step (the slices taken on doubles, as
    Python computes them), so through the whole run they hold the source's
    own samples in the persistent buffer and the source's own bytes in every
    frame emitted: they are never overwritten. *)
Theorem C2_columns_never_overwritten (strength : R) (img : image Byte.byte)
        (rs : np.RandomState) (k : nat) (c : Z) :
  let self := wide_creator strength in
  resized_shape self img -> (k <= 4)%nat -> 2 <= c < 4 ->
  Py.total_frames (Py.Int (fps self)) (Py.Int 1) = Some 4
  /\ has_shape 2 4 img
  /\ (forall i, 0 <= i < 4 ->
        Binary64.in_region64 4 i 4 (scan_extent self) c = false)
  /\ column (Z.to_nat c) (current_frame (state_after64 self 4 img rs k))
     = column (Z.to_nat c) (normalize img)
  /\ Forall (fun frame => column (Z.to_nat c) frame
                          = column (Z.to_nat c) (imap uint8_value img))
            (frames (state_after64 self 4 img rs k)).
Proof.
  intros self Hshape Hk Hc.
  assert (Hs : has_shape 2 4 img) by exact Hshape.
  assert (Hmiss : forall i, 0 <= i < 4 ->
            Binary64.in_region64 4 i 4 (scan_extent self) c = false)
    by (intros i Hi; apply wide_run_misses; assumption).
  assert (Hcol : forall n, (n <= 4)%nat ->
            column (Z.to_nat c) (current_frame (state_after64 self 4 img rs n))
            = column (Z.to_nat c) (normalize img)).
  { induction n as [|n IH]; intros Hn; [reflexivity|].
    rewrite state_after64_succ.
    rewrite (column_loop_body64 self 4 (Z.of_nat n) _ 2 4)
      by (try apply state_after64_shape; try assumption; lia).
    rewrite Z2Nat.id by lia. change (Z.of_nat 4) with 4.
    rewrite Hmiss by lia. apply IH. lia. }
  split; [reflexivity|]. split; [exact Hs|]. split; [exact Hmiss|].
  split; [apply Hcol, Hk|].
  induction k as [|k IH]; [constructor|].
  rewrite state_after64_succ, loop_body64_frames, <- state_after64_succ.
  apply Forall_app. split; [apply IH; lia|].
  constructor; [|constructor].
  rewrite <- frame_to_save_normalize. unfold frame_to_save.
  rewrite !column_imap. f_equal. apply Hcol, Hk.
Qed.

(** The whole run on a black source, column 3. *)
Lemma C2_columns_never_overwritten_witness :
  let self := wide_creator 0 in
  Py.total_frames (Py.Int (fps self)) (Py.Int 1) = Some 4
  /\ has_shape 2 4 black_2x4
  /\ (forall i, 0 <= i < 4 ->
        Binary64.in_region64 4 i 4 (scan_extent self) 3 = false)
  /\ column (Z.to_nat 3)
       (current_frame (state_after64 self 4 black_2x4 silent_generator 4))
     = column (Z.to_nat 3) (normalize black_2x4)
  /\ Forall (fun frame => column (Z.to_nat 3) frame
                          = column (Z.to_nat 3) (imap uint8_value black_2x4))
            (frames (state_after64 self 4 black_2x4 silent_generator 4)).
Proof.
  apply (C2_columns_never_overwritten 0 black_2x4 silent_generator 4 3).
  - split; [reflexivity|]. repeat constructor.
  - lia.
  - lia.
Defined.

(** ** The frame count *)

(** C3, as the specification states it, fails: line 24 rounds the product
    to a double before it truncates.  With [fps = 10] and [duration = 0.7]
    (the double Python stores, which is below 7/10) the product rounds up to
    7.0 and the run has 7 frames, where the floor of [fps] times the number
    stored is 6; with [fps = 100] and [duration = 0.29] the product rounds
    to a double below 29 and the run has 28 frames, where the floor of
    [100 * 29/100] is 29. *)
Lemma C3_the_product_is_rounded_first :
  Py.total_frames (Py.Int 10) (Py.Float Py.d0_7) = Some 7
  /\ Qfloor (10 * Py.value Py.d0_7) = 6
  /\ Py.total_frames (Py.Int 100) (Py.Float Py.d0_29) = Some 28
  /\ Qfloor (100 * (29 # 100)) = 29.
Proof. repeat split; vm_compute; reflexivity. Qed.

(** C3, amended. [total_frames] is [int] of the product as Python
    evaluates it; for an integer [fps] and an integer [duration] that is
    their exact product, the floor of [fps * duration].  Whatever
    [total_frames] line 24 gave, the loop emits exactly that many frames
    (none when it is not positive), and frame [i] of the sequence is the
    snapshot step [i] made, step [i] being the loop body at index [i] run on
    the state the steps before it left. *)
Theorem C3_frame_count_and_order (self : EvolvingVideoCreator)
        (img : image Byte.byte) (rs : np.RandomState)
        (fps duration : Py.number) (T : Z) :
  Py.total_frames fps duration = Some T ->
  (forall f d, fps = Py.Int f -> duration = Py.Int d ->
     T = f * d /\ T = Qfloor (inject_Z f * inject_Z d))
  /\ length (frames (generate64 self T img rs)) = Z.to_nat T
  /\ forall i : nat,
       (i < Z.to_nat T)%nat ->
       nth_error (frames (generate64 self T img rs)) i
       = Some (frame_to_save (current_frame (state_after64 self T img rs (S i))))
       /\ state_after64 self T img rs (S i)
          = loop_body64 self T (Z.of_nat i) (state_after64 self T img rs i).
Proof.
  intros HT. split; [|split].
  - intros f d -> ->. cbn in HT. injection HT as <-. split; [reflexivity|].
    unfold Qfloor, Qmult, inject_Z. cbn [Qnum Qden Pos.mul].
    symmetry. apply Z.div_1_r.
  - apply state_after64_frames_length.
  - intros i Hi. split.
    + apply state_after64_nth_frame, Hi.
    + apply state_after64_succ.
Qed.

(** C3 amended, at the defaults on a one-pixel source. *)
Lemma C3_frame_count_and_order_witness :
  (forall f d, Py.Int 30 = Py.Int f -> Py.Int 10 = Py.Int d ->
     300 = f * d /\ 300 = Qfloor (inject_Z f * inject_Z d))
  /\ length (frames (generate64 default_creator 300 black_image silent_generator))
     = Z.to_nat 300
  /\ forall i : nat,
       (i < Z.to_nat 300)%nat ->
       nth_error (frames (generate64 default_creator 300 black_image
                            silent_generator)) i
       = Some (frame_to_save
                 (current_frame (state_after64 default_creator 300 black_image
                                   silent_generator (S i))))
       /\ state_after64 default_creator 300 black_image silent_generator (S i)
          = loop_body64 default_creator 300 (Z.of_nat i)
              (state_after64 default_creator 300 black_image silent_generator i).
Proof.
  apply (C3_frame_count_and_order default_creator black_image silent_generator
           (Py.Int 30) (Py.Int 10) 300).
  reflexivity.
Defined.

(** * More of the transform, and the window *)

(** ** The colour stage (lines 70-83) *)

Local Open Scope R_scope.

(** The two amplitudes: the hue is shifted by at most 18 either way and the
    saturation scaled by a factor of [0.9, 1.1], at every progress; the four
    bounds are reached, at progress 1/4, 3/4, 1/6 and 1/2. *)
Theorem shift_amplitudes :
  (forall progress : R,
     -18 <= hue_shift progress * 180 <= 18
     /\ 0.9 <= saturation_factor progress <= 1.1)
  /\ hue_shift (1 / 4) * 180 = 18
  /\ hue_shift (3 / 4) * 180 = -18
  /\ saturation_factor (1 / 6) = 1.1
  /\ saturation_factor (1 / 2) = 0.9.
Proof.
  unfold hue_shift, saturation_factor. split; [|split; [|split; [|split]]].
  - intros progress.
    pose proof (SIN_bound (progress * 2 * PI)) as [H1 H2].
    pose proof (SIN_bound (progress * 3 * PI)) as [H3 H4].
    lra.
  - replace (1 / 4 * 2 * PI) with (PI / 2) by field. rewrite sin_PI2. lra.
  - replace (3 / 4 * 2 * PI) with (3 * (PI / 2)) by field. rewrite sin_3PI2. lra.
  - replace (1 / 6 * 3 * PI) with (PI / 2) by field. rewrite sin_PI2. lra.
  - replace (1 / 2 * 3 * PI) with (3 * (PI / 2)) by field. rewrite sin_3PI2. lra.
Qed.

Local Open Scope Z_scope.

(** ** What the method prints, and the window *)

Lemma progress_reports_upto (T : Z) (n : nat) :
  flat_map (progress_report T) (range (Z.of_nat n))
  = map (fun k => progress_line T (10 * k)) (range ((Z.of_nat n + 9) / 10)).
Proof.
  induction n as [|n IH]; [reflexivity|].
  rewrite range_succ, flat_map_app, IH. cbn [flat_map]. rewrite app_nil_r.
  unfold progress_report.
  destruct (Z.eqb_spec (Z.of_nat n mod 10) 0) as [E|N].
  - replace ((Z.of_nat (S n) + 9) / 10)
      with (Z.of_nat (S (Z.to_nat (Z.of_nat n / 10))))
      by (rewrite Nat2Z.inj_succ, Z2Nat.id;
          [|apply Z.div_pos; lia];
          pose proof (Z.div_mod (Z.of_nat n) 10 ltac:(lia));
          pose proof (Z.div_mod (Z.of_nat (S n) + 9) 10 ltac:(lia));
          pose proof (Z.mod_pos_bound (Z.of_nat (S n) + 9) 10 ltac:(lia)); lia).
    rewrite range_succ, map_app. rewrite Z2Nat.id by (apply Z.div_pos; lia).
    replace ((Z.of_nat n + 9) / 10) with (Z.of_nat n / 10)
      by (pose proof (Z.div_mod (Z.of_nat n) 10 ltac:(lia));
          pose proof (Z.div_mod (Z.of_nat n + 9) 10 ltac:(lia));
          pose proof (Z.mod_pos_bound (Z.of_nat n + 9) 10 ltac:(lia)); lia).
    cbn [map]. do 3 f_equal.
    pose proof (Z.div_mod (Z.of_nat n) 10 ltac:(lia)). lia.
  - rewrite app_nil_r. f_equal. f_equal.
    pose proof (Z.div_mod (Z.of_nat n + 9) 10 ltac:(lia)).
    pose proof (Z.mod_pos_bound (Z.of_nat n + 9) 10 ltac:(lia)).
    pose proof (Z.div_mod (Z.of_nat (S n) + 9) 10 ltac:(lia)).
    pose proof (Z.mod_pos_bound (Z.of_nat (S n) + 9) 10 ltac:(lia)).
    pose proof (Z.div_mod (Z.of_nat n) 10 ltac:(lia)).
    pose proof (Z.mod_pos_bound (Z.of_nat n) 10 ltac:(lia)).
    lia.
Qed.

Lemma progress_reports (T : Z) :
  flat_map (progress_report T) (range T)
  = map (fun k => progress_line T (10 * k)) (range ((T + 9) / 10)).
Proof.
  destruct (Z.le_gt_cases T 0) as [H|H].
  - rewrite (range_nonpos T H). rewrite range_nonpos; [reflexivity|].
    pose proof (Z.div_mod (T + 9) 10 ltac:(lia)).
    pose proof (Z.mod_pos_bound (T + 9) 10 ltac:(lia)). lia.
  - pose proof (progress_reports_upto T (Z.to_nat T)) as P.
    rewrite Z2Nat.id in P by lia. exact P.
Qed.

Lemma py_not_false (s : String.string) : s <> ""%string -> py_not s = false.
Proof. destruct s; [contradiction|reflexivity]. Qed.

Section WindowFacts.

Variable imread_resize : String.string -> Z * Z -> raises (image Byte.byte).
Variable write_videofile : ImageSequenceClip -> String.string -> raises unit.

(** Once the source is read, the method prints [Generating frames...], one
    progress line for each of the frames 0, 10, 20, ... below [total_frames]
    (the next integer above [total_frames / 10] of them, none for an empty
    run), [Creating video...], and [Video saved to ...] only if the encoder
    returns. *)
Theorem progress_every_tenth_frame (self : EvolvingVideoCreator)
        (image_path output_path : String.string) (rs : np.RandomState)
        (img : image Byte.byte) :
  imread_resize image_path (output_size self) = Returns img ->
  let T := total_frames self in
  exists clip,
    create_evolving_video self img rs = Assembled clip
    /\ snd (run_create_evolving_video imread_resize write_videofile self
              image_path output_path rs)
       = ["Generating frames..."%string]
         ++ map (fun k => progress_line T (10 * k)) (range ((T + 9) / 10))
         ++ ["Creating video..."%string]
         ++ match write_videofile clip output_path with
            | Returns _ => [String.append "Video saved to " output_path]
            | Raises _ => []
            end.
Proof.
  intros Hread T. eexists. split; [reflexivity|].
  unfold run_create_evolving_video. rewrite Hread. fold T.
  rewrite progress_reports.
  destruct (write_videofile _ _).
  - cbn [snd]. rewrite <- !app_assoc. reflexivity.
  - cbn [snd]. rewrite app_nil_r. reflexivity.
Qed.

(** With both paths given, the sliders inside their ranges (15 to 60 frames
    per second, 5 to 30 seconds) and a source that can be read, the callback
    runs the creator with [total_frames = fps * duration], a number of
    [75, 1800], and the size it had; the encoder is handed exactly that many
    frames at the slider's rate, so that the clip lasts [duration] seconds;
    and the status says success when the encoder returns, [Error: ...] with
    its message when it raises. *)
Theorem start_creation_from_the_sliders (rs : np.RandomState) (w : window)
        (img : image Byte.byte) :
  input_path w <> ""%string -> output_path w <> ""%string ->
  15 <= fps_slider w <= 60 -> 5 <= duration_slider w <= 30 ->
  imread_resize (input_path w) (output_size (creator w)) = Returns img ->
  let w' := start_creation imread_resize write_videofile rs w in
  let T := fps_slider w * duration_slider w in
  total_frames (creator w') = T
  /\ 75 <= T <= 1800
  /\ output_size (creator w') = output_size (creator w)
  /\ exists clip,
       create_evolving_video (creator w') img rs = Assembled clip
       /\ length (clip_frames clip) = Z.to_nat T
       /\ clip_fps clip = fps_slider w
       /\ status_label w'
          = match write_videofile clip (output_path w) with
            | Returns _ => "Video created successfully!"%string
            | Raises e => String.append "Error: " e
            end.
Proof.
  intros Hin Hout Hfps Hdur Hread w' T.
  assert (Ew : w' = let creator :=
                      mkCreator (fps_slider w) (inject_Z (duration_slider w))
                                (evolution_slider w) (output_size (creator w)) in
                    mkWindow creator (input_path w) (output_path w)
                      (duration_slider w) (fps_slider w) (evolution_slider w)
                      match fst (run_create_evolving_video imread_resize
                                   write_videofile creator (input_path w)
                                   (output_path w) rs) with
                      | Returns _ => "Video created successfully!"%string
                      | Raises e => String.append "Error: " e
                      end).
  { unfold w', start_creation.
    rewrite (py_not_false _ Hin), (py_not_false _ Hout). reflexivity. }
  cbv zeta in Ew. rewrite Ew. cbn [creator status_label output_size].
  assert (ET : total_frames
                 (mkCreator (fps_slider w) (inject_Z (duration_slider w))
                            (evolution_slider w) (output_size (creator w))) = T).
  { unfold total_frames, py_int. cbn [fps duration].
    unfold Qmult, inject_Z. cbn [Qnum Qden Pos.mul].
    apply Z.quot_1_r. }
  split; [exact ET|]. split; [unfold T; nia|]. split; [reflexivity|].
  eexists. split; [reflexivity|]. cbn [clip_frames clip_fps fps].
  split; [|split; [reflexivity|]].
  - rewrite length_map, generate_state_after, state_after_frames_length, ET.
    reflexivity.
  - unfold run_create_evolving_video. cbn [output_size]. rewrite Hread.
    destruct (write_videofile _ _); reflexivity.
Qed.

End WindowFacts.

(** The default run, read and encoded without an error: 30 progress
    lines. *)
Lemma progress_every_tenth_frame_witness :
  exists clip,
    create_evolving_video default_creator black_image silent_generator
    = Assembled clip
    /\ snd (run_create_evolving_video reads_black_image encoder_returns
              default_creator "in.png" "out.mp4" silent_generator)
       = ["Generating frames..."%string]
         ++ map (fun k => progress_line (total_frames default_creator) (10 * k))
                (range ((total_frames default_creator + 9) / 10))
         ++ ["Creating video..."%string]
         ++ match encoder_returns clip "out.mp4" with
            | Returns _ => [String.append "Video saved to " "out.mp4"]
            | Raises _ => []
            end.
Proof.
  apply (progress_every_tenth_frame reads_black_image encoder_returns
           default_creator "in.png" "out.mp4" silent_generator black_image).
  reflexivity.
Defined.

(** The sliders where the window opens them, both paths chosen. *)
Lemma start_creation_from_the_sliders_witness :
  let w := window_with_paths in
  let w' := start_creation reads_black_image encoder_returns silent_generator w in
  let T := fps_slider w * duration_slider w in
  total_frames (creator w') = T
  /\ 75 <= T <= 1800
  /\ output_size (creator w') = output_size (creator w)
  /\ exists clip,
       create_evolving_video (creator w') black_image silent_generator
       = Assembled clip
       /\ length (clip_frames clip) = Z.to_nat T
       /\ clip_fps clip = fps_slider w
       /\ status_label w'
          = match encoder_returns clip (output_path w) with
            | Returns _ => "Video created successfully!"%string
            | Raises e => String.append "Error: " e
            end.
Proof.
  apply (start_creation_from_the_sliders reads_black_image encoder_returns
           silent_generator window_with_paths black_image).
  - discriminate.
  - discriminate.
  - cbn. lia.
  - cbn. lia.
  - reflexivity.
Defined.
